(** * HipSTR: region bookkeeping and the per-region read filter

    A shallow embedding of [src/region.h] (classes [Region] and
    [RegionGroup]) and of [BamProcessor::read_and_filter_reads] in
    [src/bam_processor.cpp], with the properties the specification states
    about them.

    Conventions.
    - [int32_t] and [int] values are integers of [Z]; every arithmetic
      operation of the source is written with its 32-bit wrap-around
      ([wrap32]).  Comparisons, [std::min] and [std::max] need none.
    - [printErrorAndDie] ends the process; code that may call it lives in
      the monad [M], whose result records the state at the moment of the
      abort.
    - [std::string] is [string]; [std::vector] is [list]; [std::map] is
      [gmap]. *)

From Stdlib Require Import ZArith Lia Ascii String Sorted Permutation.
From Stdlib Require Import DecimalString DecimalZ DecimalPos.
From stdpp Require Import base option list gmap strings sorting.

Local Open Scope Z_scope.

(** ** Machine integers *)

Definition INT_MIN : Z := - 2 ^ 31.
Definition INT_MAX : Z := 2 ^ 31 - 1.

Definition in_int32 (z : Z) : Prop := INT_MIN <= z <= INT_MAX.

Definition wrap32 (z : Z) : Z := (z + 2 ^ 31) mod 2 ^ 32 - 2 ^ 31.

Definition int_add (a b : Z) : Z := wrap32 (a + b).
Definition int_sub (a b : Z) : Z := wrap32 (a - b).
(** [abs] of <stdlib.h> on a 32-bit [int]. *)
Definition int_abs (a : Z) : Z := wrap32 (Z.abs a).
(** [x++] on an [int] counter. *)
Definition int_incr (a : Z) : Z := wrap32 (a + 1).

(** ** Fatal errors: a state monad whose computations may abort *)

Inductive outcome (A : Type) : Type :=
| Ok (a : A)
| Died (msg : string).
Arguments Ok {A} a.
Arguments Died {A} msg.

Definition M (S A : Type) : Type := S -> S * outcome A.

Definition m_ret {S A} (a : A) : M S A := fun s => (s, Ok a).

Definition m_bind {S A B} (m : M S A) (k : A -> M S B) : M S B :=
  fun s => match m s with
           | (s', Ok a) => k a s'
           | (s', Died msg) => (s', Died msg)
           end.

Definition m_get {S} : M S S := fun s => (s, Ok s).
Definition m_modify {S} (f : S -> S) : M S unit := fun s => (f s, Ok tt).

(** Modelled from the spec: [printErrorAndDie] is declared in error.h, which
    is not among the sources; the specification calls each of its uses a
    fatal condition that aborts the entire run with a descriptive message.
    Nothing after it runs, and the state is the one it was called in. *)
Definition printErrorAndDie {S A} (msg : string) : M S A :=
  fun s => (s, Died msg).

#[global] Instance M_ret {S} : MRet (M S) := fun A => @m_ret S A.
#[global] Instance M_bind {S} : MBind (M S) := fun A B k m => @m_bind S A B m k.

Definition when_ {S} (b : bool) (m : M S unit) : M S unit :=
  if b then m else mret tt.

(** ** Region (region.h, lines 16-58) *)

Record Region : Type := mkRegion {
  chrom : string;
  name : string;
  start : Z;
  stop : Z;
  period : Z
}.

(** [Region::operator<]: chromosome by [std::string::compare], then start,
    then stop. *)
Definition Region_ltb (l r : Region) : bool :=
  match String.compare (chrom l) (chrom r) with
  | Lt => true
  | Gt => false
  | Eq =>
      if negb (start l =? start r) then start l <? start r
      else if negb (stop l =? stop r) then stop l <? stop r
      else false
  end.

(** [a] may stand before [b] in a sequence sorted by [operator<]. *)
Definition Region_le (a b : Region) : Prop := Region_ltb b a = false.

(** [std::sort(first, last)] with [operator<].  The standard fixes the
    result up to the order of equivalent elements; the embedding takes the
    insertion sort, and the properties below rest only on the result being
    a permutation sorted by [operator<]. *)
Fixpoint sort_insert (x : Region) (l : list Region) : list Region :=
  match l with
  | [] => [x]
  | y :: l' => if Region_ltb x y then x :: y :: l' else y :: sort_insert x l'
  end.

Definition std_sort (l : list Region) : list Region :=
  foldr sort_insert [] l.

(** ** RegionGroup (region.h, lines 68-99) *)

Record RegionGroup : Type := mkRegionGroup {
  regions_ : list Region;
  chrom_ : string;
  start_ : Z;
  stop_ : Z
}.

(** The constructor [RegionGroup(Region& region)]. *)
Definition RegionGroup_new (region : Region) : RegionGroup :=
  {| regions_ := [region];
     chrom_ := chrom region;
     start_ := start region;
     stop_ := stop region |}.

Definition num_regions (g : RegionGroup) : nat := length (regions_ g).

Definition set_start_ (v : Z) (g : RegionGroup) : RegionGroup :=
  {| regions_ := regions_ g; chrom_ := chrom_ g; start_ := v; stop_ := stop_ g |}.
Definition set_stop_ (v : Z) (g : RegionGroup) : RegionGroup :=
  {| regions_ := regions_ g; chrom_ := chrom_ g; start_ := start_ g; stop_ := v |}.
Definition set_regions_ (v : list Region) (g : RegionGroup) : RegionGroup :=
  {| regions_ := v; chrom_ := chrom_ g; start_ := start_ g; stop_ := stop_ g |}.

(** [s.compare(t) != 0] *)
Definition compare_ne0 (s t : string) : bool :=
  match String.compare s t with Eq => false | _ => true end.

Definition add_region (region : Region) : M RegionGroup unit :=
  g ← m_get;
  _ ← when_ (compare_ne0 (chrom region) (chrom_ g))
        (printErrorAndDie
           "RegionGroup can only consist of regions on a single chromosome");
  _ ← m_modify (fun g => set_start_ (Z.min (start_ g) (start region)) g);
  _ ← m_modify (fun g => set_stop_ (Z.max (stop_ g) (stop region)) g);
  _ ← m_modify (fun g => set_regions_ (regions_ g ++ [region]) g);
  m_modify (fun g => set_regions_ (std_sort (regions_ g)) g).

(** A run of insertions; it stops at the first abort. *)
Fixpoint add_regions (rs : list Region) : M RegionGroup unit :=
  match rs with
  | [] => mret tt
  | r :: rs' => _ ← add_region r; add_regions rs'
  end.

(** ** Alignment records *)

Inductive TagValue : Type :=
| TagString (s : string)
| TagInt (z : Z).

(** One entry of a record's tag data: two-character name, type code, value. *)
Record Tag : Type := mkTag {
  tag_name : string;
  tag_type : string;
  tag_value : TagValue
}.

(** The fields of [BamTools::BamAlignment] that the processor reads.
    [EndPosition] is the value of [GetEndPosition()] (half-open end of the
    alignment on the reference). *)
Record BamAlignment : Type := mkAlignment {
  RefID : Z;
  MateRefID : Z;
  Position : Z;
  EndPosition : Z;
  InsertSize : Z;
  Filename : string;
  TagData : list Tag
}.

Definition set_TagData (t : list Tag) (a : BamAlignment) : BamAlignment :=
  {| RefID := RefID a; MateRefID := MateRefID a; Position := Position a;
     EndPosition := EndPosition a; InsertSize := InsertSize a;
     Filename := Filename a; TagData := t |}.

#[global] Instance TagValue_eq_dec : EqDecision TagValue.
Proof. solve_decision. Defined.
#[global] Instance Tag_eq_dec : EqDecision Tag.
Proof. solve_decision. Defined.
#[global] Instance BamAlignment_eq_dec : EqDecision BamAlignment.
Proof. solve_decision. Defined.

(** *** The tag capability of the alignment-file library

    [HasTag], [RemoveTag], [AddTag] and [EditTag] belong to
    [BamTools::BamAlignment], which is not among the sources.  The
    specification names a per-record tag get/remove/add by name and typed
    value, says that a tag mutation can fail, and that an existing
    same-named tag has to be removed before an add. *)

(** Modelled from the spec: tag data is the ordered sequence of entries,
    and a lookup by name finds the first entry of that name. *)
Fixpoint find_tag (tag : string) (tags : list Tag) : option Tag :=
  match tags with
  | [] => None
  | t :: tags' =>
      if decide (tag_name t = tag) then Some t else find_tag tag tags'
  end.

(** Modelled from the spec: the value of the tag of that name, if any. *)
Definition GetTag (tag : string) (a : BamAlignment) : option TagValue :=
  tag_value <$> find_tag tag (TagData a).

(** Modelled from the spec: whether the record has a tag of that name. *)
Definition HasTag (tag : string) (a : BamAlignment) : bool :=
  match find_tag tag (TagData a) with Some _ => true | None => false end.

Fixpoint remove_first (tag : string) (tags : list Tag) : list Tag :=
  match tags with
  | [] => []
  | t :: tags' =>
      if decide (tag_name t = tag) then tags' else t :: remove_first tag tags'
  end.

(** Modelled from the spec: removes the entry a lookup would find; a
    record without the tag is left as it is. *)
Definition RemoveTag (tag : string) (a : BamAlignment) : BamAlignment :=
  set_TagData (remove_first tag (TagData a)) a.

Section TagLibrary.
(** Which (name, type code) pairs the library accepts at all. *)
Variable tag_ok : string -> string -> bool.

(** Modelled from the spec: an add fails, leaving the record as it is,
    when the library rejects the name or type code or when a tag of that
    name is present; otherwise the entry is appended.  The result is the
    library's success flag and the record afterwards. *)
Definition AddTag (tag type : string) (value : TagValue) (a : BamAlignment)
  : bool * BamAlignment :=
  if negb (tag_ok tag type) then (false, a)
  else if HasTag tag a then (false, a)
  else (true, set_TagData (TagData a ++ [mkTag tag type value]) a).

(** Modelled from the spec: add or replace, that is, remove the tag if
    present, then add. *)
Definition EditTag (tag type : string) (value : TagValue) (a : BamAlignment)
  : bool * BamAlignment :=
  AddTag tag type value (if HasTag tag a then RemoveTag tag a else a).
End TagLibrary.

(** ** The processor's thresholds

    The members of [BamProcessor] that [read_and_filter_reads] reads;
    bam_processor.h is not among the sources, so their values are
    parameters. *)

Record BamProcessor : Type := mkProcessor {
  MAX_MATE_DIST : Z;
  MIN_BP_BEFORE_INDEL : Z;
  MIN_FLANK : Z;
  MIN_READ_END_MATCH : Z;
  MAXIMAL_END_MATCH_WINDOW : Z;
  REMOVE_MULTIMAPPERS : bool
}.

(** The three functions of namespace [AlignmentFilters] that the cascade
    calls; alignment_filters.h is not among the sources, so they are taken
    as given. *)
Record AlignmentFilters : Type := mkFilters {
  GetEndDistToIndel : BamAlignment -> Z * Z;
  HasLargestEndMatches : BamAlignment -> string -> Z -> Z -> Z -> bool;
  GetNumEndMatches : BamAlignment -> string -> Z -> Z * Z
}.

(** ** The filter cascade (bam_processor.cpp, lines 15-78) *)

(** The local counters of [read_and_filter_reads]. *)
Record Counters : Type := mkCounters {
  read_count : Z;
  diff_chrom_mate : Z;
  unmapped_mate : Z;
  not_spanning : Z;
  insert_size : Z;
  multimapped : Z;
  flank_len : Z;
  bp_before_indel : Z;
  end_match_window : Z;
  num_end_matches : Z
}.

Definition zero_counters : Counters := mkCounters 0 0 0 0 0 0 0 0 0 0.

Inductive Reason : Type :=
| DiffChromMate | UnmappedMate | NotSpanning | ExcessInsertSize | Multimapped
| InsufficientFlank | IndelTooClose | NonMaximalEndMatch | InsufficientEndMatch.

#[global] Instance Reason_eq_dec : EqDecision Reason.
Proof. solve_decision. Defined.

(** [counter++] for the counter of one failure reason. *)
Definition bump (r : Reason) (c : Counters) : Counters :=
  match c with
  | mkCounters rc dc um ns ins mm fl bi ew ne =>
      match r with
      | DiffChromMate => mkCounters rc (int_incr dc) um ns ins mm fl bi ew ne
      | UnmappedMate => mkCounters rc dc (int_incr um) ns ins mm fl bi ew ne
      | NotSpanning => mkCounters rc dc um (int_incr ns) ins mm fl bi ew ne
      | ExcessInsertSize => mkCounters rc dc um ns (int_incr ins) mm fl bi ew ne
      | Multimapped => mkCounters rc dc um ns ins (int_incr mm) fl bi ew ne
      | InsufficientFlank => mkCounters rc dc um ns ins mm (int_incr fl) bi ew ne
      | IndelTooClose => mkCounters rc dc um ns ins mm fl (int_incr bi) ew ne
      | NonMaximalEndMatch => mkCounters rc dc um ns ins mm fl bi (int_incr ew) ne
      | InsufficientEndMatch => mkCounters rc dc um ns ins mm fl bi ew (int_incr ne)
      end
  end.

Definition bump_read_count (c : Counters) : Counters :=
  match c with
  | mkCounters rc dc um ns ins mm fl bi ew ne =>
      mkCounters (int_incr rc) dc um ns ins mm fl bi ew ne
  end.

(** The counter that belongs to a failure reason. *)
Definition counter_of (r : Reason) (c : Counters) : Z :=
  match r with
  | DiffChromMate => diff_chrom_mate c
  | UnmappedMate => unmapped_mate c
  | NotSpanning => not_spanning c
  | ExcessInsertSize => insert_size c
  | Multimapped => multimapped c
  | InsufficientFlank => flank_len c
  | IndelTooClose => bp_before_indel c
  | NonMaximalEndMatch => end_match_window c
  | InsufficientEndMatch => num_end_matches c
  end.

(** Loop state: the counters and [region_alignments]. *)
Record FilterState : Type := mkFilterState {
  counts : Counters;
  region_alignments : list BamAlignment
}.

Definition init_state : FilterState := mkFilterState zero_counters [].

Definition count_c (f : Counters -> Counters) (st : FilterState) : FilterState :=
  mkFilterState (f (counts st)) (region_alignments st).

Definition push_back (a : BamAlignment) (st : FilterState) : FilterState :=
  mkFilterState (counts st) (region_alignments st ++ [a]).

Section Cascade.
Variable AF : AlignmentFilters.
Variable P : BamProcessor.
Variable chrom_seq : string.
Variable region : Region.

(** One iteration of the [while] loop.  Each [if ... continue] of the
    source is one arm; a check under [if (X > 0)] is the conjunction of
    the guard and the check. *)
Definition filter_step (st : FilterState) (alignment : BamAlignment)
  : FilterState :=
  let st := count_c bump_read_count st in
  if negb (RefID alignment =? MateRefID alignment) then
    count_c (bump DiffChromMate) st
  else if InsertSize alignment =? 0 then
    count_c (bump UnmappedMate) st
  else if (Position alignment >? start region)
          || (EndPosition alignment <? stop region) then
    count_c (bump NotSpanning) st
  else if int_abs (InsertSize alignment) >? MAX_MATE_DIST P then
    count_c (bump ExcessInsertSize) st
  else if REMOVE_MULTIMAPPERS P && HasTag "XA" alignment then
    count_c (bump Multimapped) st
  else if (Position alignment >? int_sub (start region) (MIN_FLANK P))
          || (EndPosition alignment <? int_add (stop region) (MIN_FLANK P)) then
    count_c (bump InsufficientFlank) st
  else if (MIN_BP_BEFORE_INDEL P >? 0)
          && (let num_bps := GetEndDistToIndel AF alignment in
              (negb (fst num_bps =? -1) && (fst num_bps <? MIN_BP_BEFORE_INDEL P))
              || (negb (snd num_bps =? -1) && (snd num_bps <? MIN_BP_BEFORE_INDEL P))) then
    count_c (bump IndelTooClose) st
  else if (MAXIMAL_END_MATCH_WINDOW P >? 0)
          && (let maximum_end_matches :=
                HasLargestEndMatches AF alignment chrom_seq 0
                  (MAXIMAL_END_MATCH_WINDOW P) (MAXIMAL_END_MATCH_WINDOW P) in
              negb maximum_end_matches) then
    count_c (bump NonMaximalEndMatch) st
  else if (MIN_READ_END_MATCH P >? 0)
          && (let match_lens := GetNumEndMatches AF alignment chrom_seq 0 in
              (fst match_lens <? MIN_READ_END_MATCH P)
              || (snd match_lens <? MIN_READ_END_MATCH P)) then
    count_c (bump InsufficientEndMatch) st
  else push_back alignment st.

(** The whole [while (reader.GetNextAlignment(alignment))] loop over the
    records the reader yields for the region. *)
Definition filter_reads (reader : list BamAlignment) : FilterState :=
  fold_left filter_step reader init_state.
End Cascade.

(** ** Resolving a record's library label

    [file_read_groups[name]] on a [std::map<std::string, std::string>]:
    the mapped label, or the empty string for a file name that is not a
    key.  ([operator[]] then also stores the empty string under that name;
    [subscript_keeps_labels] below shows that no later lookup changes.) *)
Definition label_of (file_read_groups : gmap string string) (file : string)
  : string :=
  default "" (file_read_groups !! file).

Definition subscript (file_read_groups : gmap string string) (file : string)
  : gmap string string :=
  match file_read_groups !! file with
  | Some _ => file_read_groups
  | None => <[file := ""]> file_read_groups
  end.

(** ** Writing the surviving reads (bam_processor.cpp, lines 91-111) *)

Definition m_call {S A} (f : S -> A * S) : M S A :=
  fun s => let (a, s') := f s in (s', Ok a).

(** The local map [rg_indices] and the two output vectors of lines
    113-128. *)
Record Demux : Type := mkDemux {
  rg_indices : gmap string nat;
  rg_names : list string;
  alignments_by_rg : list (list BamAlignment)
}.

Section Annotate.
Variable tag_ok : string -> string -> bool.
Variable file_read_groups : gmap string string.
Variable region : Region.

(** Lines 95-107, acting on the record [*read_iter] in place. *)
Definition tag_read : M BamAlignment unit :=
  read ← m_get;
  let rg_tag := "lobSTR;" +:+ label_of file_read_groups (Filename read)
                +:+ ";" +:+ label_of file_read_groups (Filename read) in
  _ ← m_call (AddTag tag_ok "RG" "Z" (TagString rg_tag));
  has_xs ← m_call (fun r => (HasTag "XS" r, r));
  _ ← when_ has_xs (m_modify (RemoveTag "XS"));
  ok_xs ← m_call (AddTag tag_ok "XS" "I" (TagInt (start region)));
  _ ← when_ (negb ok_xs) (printErrorAndDie "Failed to modify XS tag");
  has_xe ← m_call (fun r => (HasTag "XE" r, r));
  _ ← when_ has_xe (m_modify (RemoveTag "XE"));
  ok_xe ← m_call (EditTag tag_ok "XE" "I" (TagInt (stop region)));
  when_ (negb ok_xe) (printErrorAndDie "Failed to modify XE tag").

(** The output file: [BamTools::BamWriter], of which the processor uses
    [IsOpen] and [SaveAlignment]; whether a write succeeds is the
    library's answer. *)
Variable BamWriter : Type.
Variable IsOpen : BamWriter -> bool.
Variable SaveAlignment : BamAlignment -> BamWriter -> bool * BamWriter.

(** One iteration of the [for] loop of lines 93-110: the record after it,
    with the writer as state. *)
Definition annotate_read (read : BamAlignment) : M BamWriter BamAlignment :=
  fun w =>
    match tag_read read with
    | (_, Died msg) => (w, Died msg)
    | (read', Ok _) =>
        (saved ← m_call (SaveAlignment read');
         _ ← when_ (negb saved)
               (printErrorAndDie
                  "Failed to save alignment for STR-spanning read");
         mret read') w
    end.

Fixpoint annotate_reads (reads : list BamAlignment)
  : M BamWriter (list BamAlignment) :=
  match reads with
  | [] => mret []
  | read :: rest =>
      read' ← annotate_read read;
      rest' ← annotate_reads rest;
      mret (read' :: rest')
  end.

(** ** Separating the reads by read group (lines 113-128) *)

(** [alignments_by_rg[rg_index].push_back(x)].  An index past the end is
    undefined behaviour in the source and leaves the list as it is
    here. *)
Definition bucket_push (rg_index : nat) (x : BamAlignment)
           (buckets : list (list BamAlignment)) : list (list BamAlignment) :=
  alter (fun b => b ++ [x]) rg_index buckets.

Definition demux_step (st : Demux) (align : BamAlignment) : Demux :=
  let rg := label_of file_read_groups (Filename align) in
  match rg_indices st !! rg with
  | None =>
      let rg_index := size (rg_indices st) in
      mkDemux (<[rg := rg_index]> (rg_indices st))
              (rg_names st ++ [rg])
              (bucket_push rg_index align (alignments_by_rg st ++ [[]]))
  | Some rg_index =>
      mkDemux (rg_indices st) (rg_names st)
              (bucket_push rg_index align (alignments_by_rg st))
  end.

(** The loop, from the caller's [rg_names] and [alignments_by_rg] and an
    empty [rg_indices]. *)
Definition demultiplex (region_alignments : list BamAlignment)
           (names0 : list string) (buckets0 : list (list BamAlignment))
  : Demux :=
  fold_left demux_step region_alignments (mkDemux ∅ names0 buckets0).

(** ** The whole of [read_and_filter_reads] *)

Variable AF : AlignmentFilters.
Variable P : BamProcessor.
Variable chrom_seq : string.

Definition read_and_filter_reads (reader : list BamAlignment)
           (names0 : list string) (buckets0 : list (list BamAlignment))
  : M BamWriter (Counters * Demux) :=
  let st := filter_reads AF P chrom_seq region reader in
  w ← m_get;
  survivors ← (if IsOpen w then annotate_reads (region_alignments st)
               else mret (region_alignments st));
  mret (counts st, demultiplex survivors names0 buckets0).
End Annotate.

(** * Properties *)

(** ** Vocabulary of the statements *)

Definition is_minimum (m : Z) (l : list Z) : Prop :=
  m ∈ l ∧ Forall (fun x => m <= x) l.
Definition is_maximum (m : Z) (l : list Z) : Prop :=
  m ∈ l ∧ Forall (fun x => x <= m) l.

(** The three-way comparison behind [Region::operator<]. *)
Definition Region_cmp (a b : Region) : comparison :=
  match String.compare (chrom a) (chrom b) with
  | Eq => match start a ?= start b with
          | Eq => stop a ?= stop b
          | c => c
          end
  | c => c
  end.

(** What the specification asks of a group after every insertion. *)
Definition group_inv (g : RegionGroup) : Prop :=
  is_minimum (start_ g) (start <$> regions_ g)
  ∧ is_maximum (stop_ g) (stop <$> regions_ g)
  ∧ StronglySorted Region_le (regions_ g).

Section CascadeSpec.
Variable AF : AlignmentFilters.
Variable P : BamProcessor.
Variable chrom_seq : string.
Variable region : Region.

(** The arm of [filter_step] a record takes: the reason whose counter is
    incremented, or [None] for the final [push_back]. *)
Definition classify (alignment : BamAlignment) : option Reason :=
  if negb (RefID alignment =? MateRefID alignment) then Some DiffChromMate
  else if InsertSize alignment =? 0 then Some UnmappedMate
  else if (Position alignment >? start region)
          || (EndPosition alignment <? stop region) then Some NotSpanning
  else if int_abs (InsertSize alignment) >? MAX_MATE_DIST P then
    Some ExcessInsertSize
  else if REMOVE_MULTIMAPPERS P && HasTag "XA" alignment then Some Multimapped
  else if (Position alignment >? int_sub (start region) (MIN_FLANK P))
          || (EndPosition alignment <? int_add (stop region) (MIN_FLANK P)) then
    Some InsufficientFlank
  else if (MIN_BP_BEFORE_INDEL P >? 0)
          && (let num_bps := GetEndDistToIndel AF alignment in
              (negb (fst num_bps =? -1) && (fst num_bps <? MIN_BP_BEFORE_INDEL P))
              || (negb (snd num_bps =? -1) && (snd num_bps <? MIN_BP_BEFORE_INDEL P))) then
    Some IndelTooClose
  else if (MAXIMAL_END_MATCH_WINDOW P >? 0)
          && negb (HasLargestEndMatches AF alignment chrom_seq 0
                     (MAXIMAL_END_MATCH_WINDOW P) (MAXIMAL_END_MATCH_WINDOW P)) then
    Some NonMaximalEndMatch
  else if (MIN_READ_END_MATCH P >? 0)
          && (let match_lens := GetNumEndMatches AF alignment chrom_seq 0 in
              (fst match_lens <? MIN_READ_END_MATCH P)
              || (snd match_lens <? MIN_READ_END_MATCH P)) then
    Some InsufficientEndMatch
  else None.

(** The effect of one iteration, given the arm taken. *)
Definition record_outcome (o : option Reason) (a : BamAlignment)
           (st : FilterState) : FilterState :=
  match o with
  | Some r => count_c (bump r) (count_c bump_read_count st)
  | None => push_back a (count_c bump_read_count st)
  end.

(** The nine predicates as the specification words them, over the
    integers; a predicate that configuration switches off holds. *)
Definition holds (r : Reason) (a : BamAlignment) : Prop :=
  match r with
  | DiffChromMate => RefID a = MateRefID a
  | UnmappedMate => InsertSize a ≠ 0
  | NotSpanning => Position a <= start region ∧ stop region <= EndPosition a
  | ExcessInsertSize => Z.abs (InsertSize a) <= MAX_MATE_DIST P
  | Multimapped => REMOVE_MULTIMAPPERS P = true -> HasTag "XA" a = false
  | InsufficientFlank =>
      MIN_FLANK P <= start region - Position a
      ∧ MIN_FLANK P <= EndPosition a - stop region
  | IndelTooClose =>
      0 < MIN_BP_BEFORE_INDEL P ->
      (fst (GetEndDistToIndel AF a) = -1
       ∨ MIN_BP_BEFORE_INDEL P <= fst (GetEndDistToIndel AF a))
      ∧ (snd (GetEndDistToIndel AF a) = -1
         ∨ MIN_BP_BEFORE_INDEL P <= snd (GetEndDistToIndel AF a))
  | NonMaximalEndMatch =>
      0 < MAXIMAL_END_MATCH_WINDOW P ->
      HasLargestEndMatches AF a chrom_seq 0
        (MAXIMAL_END_MATCH_WINDOW P) (MAXIMAL_END_MATCH_WINDOW P) = true
  | InsufficientEndMatch =>
      0 < MIN_READ_END_MATCH P ->
      MIN_READ_END_MATCH P <= fst (GetNumEndMatches AF a chrom_seq 0)
      ∧ MIN_READ_END_MATCH P <= snd (GetNumEndMatches AF a chrom_seq 0)
  end.

#[global] Instance holds_dec r a : Decision (holds r a).
Proof. destruct r; simpl; apply _. Defined.

(** The fixed evaluation order. *)
Definition cascade_order : list Reason :=
  [DiffChromMate; UnmappedMate; NotSpanning; ExcessInsertSize; Multimapped;
   InsufficientFlank; IndelTooClose; NonMaximalEndMatch; InsufficientEndMatch].

(** The first predicate in that order that a record fails, if any. *)
Definition first_failure (a : BamAlignment) : option Reason :=
  head (filter (fun r => ¬ holds r a) cascade_order).

(** The conjunction of all nine. *)
Definition passes_all (a : BamAlignment) : Prop :=
  Forall (fun r => holds r a) cascade_order.

(** The source's arithmetic is defined (no signed overflow): the two
    flank bounds, and [abs] of a record's insert size. *)
Definition flank_defined : Prop :=
  in_int32 (start region - MIN_FLANK P) ∧ in_int32 (stop region + MIN_FLANK P).
Definition abs_defined (a : BamAlignment) : Prop :=
  in_int32 (Z.abs (InsertSize a)).

(** The loop with the insufficient-flank check (lines 48-52) taken out. *)
Definition filter_step_noflank (st : FilterState) (alignment : BamAlignment)
  : FilterState :=
  let st := count_c bump_read_count st in
  if negb (RefID alignment =? MateRefID alignment) then
    count_c (bump DiffChromMate) st
  else if InsertSize alignment =? 0 then
    count_c (bump UnmappedMate) st
  else if (Position alignment >? start region)
          || (EndPosition alignment <? stop region) then
    count_c (bump NotSpanning) st
  else if int_abs (InsertSize alignment) >? MAX_MATE_DIST P then
    count_c (bump ExcessInsertSize) st
  else if REMOVE_MULTIMAPPERS P && HasTag "XA" alignment then
    count_c (bump Multimapped) st
  else if (MIN_BP_BEFORE_INDEL P >? 0)
          && (let num_bps := GetEndDistToIndel AF alignment in
              (negb (fst num_bps =? -1) && (fst num_bps <? MIN_BP_BEFORE_INDEL P))
              || (negb (snd num_bps =? -1) && (snd num_bps <? MIN_BP_BEFORE_INDEL P))) then
    count_c (bump IndelTooClose) st
  else if (MAXIMAL_END_MATCH_WINDOW P >? 0)
          && (let maximum_end_matches :=
                HasLargestEndMatches AF alignment chrom_seq 0
                  (MAXIMAL_END_MATCH_WINDOW P) (MAXIMAL_END_MATCH_WINDOW P) in
              negb maximum_end_matches) then
    count_c (bump NonMaximalEndMatch) st
  else if (MIN_READ_END_MATCH P >? 0)
          && (let match_lens := GetNumEndMatches AF alignment chrom_seq 0 in
              (fst match_lens <? MIN_READ_END_MATCH P)
              || (snd match_lens <? MIN_READ_END_MATCH P)) then
    count_c (bump InsufficientEndMatch) st
  else push_back alignment st.

Definition filter_reads_noflank (reader : list BamAlignment) : FilterState :=
  fold_left filter_step_noflank reader init_state.
End CascadeSpec.

(** The sum of the nine failure counters. *)
Definition failures (c : Counters) : Z :=
  diff_chrom_mate c + unmapped_mate c + not_spanning c + insert_size c
  + multimapped c + flank_len c + bp_before_indel c + end_match_window c
  + num_end_matches c.

(** The distinct elements of a list in the order of their first
    occurrence. *)
Fixpoint first_seen (l : list string) : list string :=
  match l with
  | [] => []
  | x :: l' => x :: filter (fun y => y ≠ x) (first_seen l')
  end.

(** The counting invariant of the loop after [n] records. *)
Definition counted (n : Z) (st : FilterState) : Prop :=
  let c := counts st in
  read_count c = n
  ∧ failures c + Z.of_nat (length (region_alignments st)) = n
  ∧ 0 <= diff_chrom_mate c ∧ 0 <= unmapped_mate c ∧ 0 <= not_spanning c
  ∧ 0 <= insert_size c ∧ 0 <= multimapped c ∧ 0 <= flank_len c
  ∧ 0 <= bp_before_indel c ∧ 0 <= end_match_window c
  ∧ 0 <= num_end_matches c.

Section AnnotateSpec.
Variable tag_ok : string -> string -> bool.
Variable region : Region.

Definition xs_entry : Tag := mkTag "XS" "I" (TagInt (start region)).
Definition xe_entry : Tag := mkTag "XE" "I" (TagInt (stop region)).

(** The tag data of a record that [tag_read] has annotated: the two
    region tags last, once each, and the read-group tag settled. *)
Definition annotated (tags : list Tag) : Prop :=
  exists base,
    tags = base ++ [xs_entry; xe_entry]
    ∧ find_tag "XS" base = None ∧ find_tag "XE" base = None
    ∧ (tag_ok "RG" "Z" = false ∨ is_Some (find_tag "RG" base)).
End AnnotateSpec.

Section DemuxSpec.
Variable file_read_groups : gmap string string.

(** The resolved label of a record. *)
Definition label (a : BamAlignment) : string :=
  label_of file_read_groups (Filename a).

(** The bucket of a label: the records of that label, in scan order. *)
Definition bucket_of (scanned : list BamAlignment) (l : string)
  : list BamAlignment :=
  filter (fun a => label a = l) scanned.

(** State of the demultiplexer loop after the records [scanned]. *)
Definition demux_inv (scanned : list BamAlignment) (st : Demux) : Prop :=
  rg_names st = first_seen (label <$> scanned)
  ∧ (forall l i, rg_indices st !! l = Some i <-> rg_names st !! i = Some l)
  ∧ size (rg_indices st) = length (rg_names st)
  ∧ alignments_by_rg st = bucket_of scanned <$> rg_names st.
End DemuxSpec.

(** ** Sample data for the worked instances *)

Definition sample_filters : AlignmentFilters :=
  mkFilters (fun _ => (-1, -1)) (fun _ _ _ _ _ => true) (fun _ _ _ => (20, 20)).
(** As [sample_filters], with an indel two bases from the left end. *)
Definition indel_filters : AlignmentFilters :=
  mkFilters (fun _ => (2, -1)) (fun _ _ _ _ _ => true) (fun _ _ _ => (20, 20)).
Definition sample_config : BamProcessor := mkProcessor 1000 7 5 10 15 true.
Definition zero_flank_config : BamProcessor := mkProcessor 1000 7 0 10 15 true.
Definition str_region : Region := mkRegion "chr1" "" 100 200 2.

Definition read_wide : BamAlignment := mkAlignment 0 0 90 210 250 "a.bam" [].
Definition read_narrow : BamAlignment := mkAlignment 0 0 97 203 250 "a.bam" [].
Definition read_inside : BamAlignment := mkAlignment 0 0 105 203 250 "b.bam" [].
Definition read_edge : BamAlignment := mkAlignment 0 0 100 200 (-250) "b.bam" [].
(** A record that already carries a read-group tag, and what [tag_read]
    makes of it for [str_region]. *)
Definition read_grouped : BamAlignment :=
  mkAlignment 0 0 90 210 300 "a.bam" [mkTag "RG" "Z" (TagString "grp1")].
Definition read_grouped_tagged : BamAlignment :=
  mkAlignment 0 0 90 210 300 "a.bam"
    [mkTag "RG" "Z" (TagString "grp1");
     mkTag "XS" "I" (TagInt 100); mkTag "XE" "I" (TagInt 200)].

Definition all_tags_ok (tag type : string) : bool := true.
Definition lib_groups : gmap string string :=
  <["a.bam" := "lib1"]> (<["b.bam" := "lib2"]> ∅).

(** A writer that keeps what it is given and never fails. *)
Definition save_always (a : BamAlignment) (w : list BamAlignment)
  : bool * list BamAlignment := (true, w ++ [a]).

(** ** Driving the regions (bam_processor.cpp, lines 131-180)

    [process_regions] after [readRegions] and [orderRegions] (declared in
    region.h, defined elsewhere) have filled [regions]: the loop over the
    regions.  The reader, the reference data and [readFasta] (seqio.h)
    are given. *)

(** How the loop ends: it ran to its end, [printErrorAndDie] ended the
    process, or [ref_vector] was indexed out of range, which the language
    leaves undefined. *)
Inductive Ending : Type :=
| Finished
| Fatal (msg : string)
| OutOfRange (chrom_id : Z).

(** What one region hands to [process_reads] (an empty function in this
    source): the region, the label list and the buckets; with them the
    reference sequence the filter was given and the counts it printed. *)
Record Handoff : Type := mkHandoff {
  h_region : Region;
  h_chrom_seq : string;
  h_counts : Counters;
  h_rg_names : list string;
  h_alignments_by_rg : list (list BamAlignment)
}.

Section ProcessRegions.
Variable tag_ok : string -> string -> bool.
Variable file_read_groups : gmap string string.
Variable BamWriter : Type.
Variable IsOpen : BamWriter -> bool.
Variable SaveAlignment : BamAlignment -> BamWriter -> bool * BamWriter.
Variable AF : AlignmentFilters.
Variable P : BamProcessor.

(** [reader.GetReferenceID(name)]. *)
Variable GetReferenceID : string -> Z.
(** [RefName] of each entry of [reader.GetReferenceData()]. *)
Variable ref_vector : list string.
(** [readFasta(file, dir, seq)]: the new content of [seq], or an abort
    inside it. *)
Variable readFasta : string -> string -> string -> outcome string.
Variable fasta_dir : string.
(** [reader.SetRegion(id, start, id, stop)]: [None] when it returns false,
    else the records [GetNextAlignment] then yields. *)
Variable SetRegion : Z -> Z -> Z -> Z -> option (list BamAlignment).

(** The loop's variables and the output file, with two traces: the
    chromosome ids and file names [readFasta] was called for, and the
    calls of [process_reads]. *)
Record ProcState : Type := mkProc {
  cur_chrom_id : Z;
  chrom_seq : string;
  bam_writer : BamWriter;
  fasta_log : list (Z * string);
  handoffs : list Handoff
}.

Definition proc_start (w : BamWriter) : ProcState := mkProc (-1) "" w [] [].

(** [ref_vector[i]] for an [int] index: a negative one converts to an
    index past the end. *)
Definition ref_at (i : Z) : option string :=
  if 0 <=? i then ref_vector !! Z.to_nat i else None.

(** Lines 152-157. *)
Definition load_chrom (chrom_id : Z) (s : ProcState)
  : ProcState * option Ending :=
  if negb (cur_chrom_id s =? chrom_id) then
    let s := mkProc chrom_id (chrom_seq s) (bam_writer s) (fasta_log s)
               (handoffs s) in
    match ref_at chrom_id with
    | None => (s, Some (OutOfRange chrom_id))
    | Some chrom =>
        match readFasta (chrom +:+ ".fa") fasta_dir (chrom_seq s) with
        | Died msg =>
            (mkProc chrom_id (chrom_seq s) (bam_writer s)
               (fasta_log s ++ [(chrom_id, chrom +:+ ".fa")]) (handoffs s),
             Some (Fatal msg))
        | Ok seq =>
            (mkProc chrom_id seq (bam_writer s)
               (fasta_log s ++ [(chrom_id, chrom +:+ ".fa")]) (handoffs s),
             None)
        end
    end
  else (s, None).

(** The body of the loop for one region, lines 148-177. *)
Definition process_region (region : Region) (s : ProcState)
  : ProcState * option Ending :=
  let chrom_id := GetReferenceID (chrom region) in
  match load_chrom chrom_id s with
  | (s, Some e) => (s, Some e)
  | (s, None) =>
      match SetRegion chrom_id (start region) chrom_id (stop region) with
      | None =>
          (s, Some (Fatal
                 "One or more BAM files failed to set the region properly"))
      | Some reader =>
          match read_and_filter_reads tag_ok file_read_groups region
                  BamWriter IsOpen SaveAlignment AF P (chrom_seq s)
                  reader [] [] (bam_writer s) with
          | (w, Died msg) =>
              (mkProc (cur_chrom_id s) (chrom_seq s) w (fasta_log s)
                 (handoffs s),
               Some (Fatal msg))
          | (w, Ok (c, d)) =>
              (mkProc (cur_chrom_id s) (chrom_seq s) w (fasta_log s)
                 (handoffs s
                  ++ [mkHandoff region (chrom_seq s) c (rg_names d)
                        (alignments_by_rg d)]),
               None)
          end
      end
  end.

Fixpoint process_regions (regions : list Region) (s : ProcState)
  : ProcState * Ending :=
  match regions with
  | [] => (s, Finished)
  | region :: rest =>
      match process_region region s with
      | (s, Some e) => (s, e)
      | (s, None) => process_regions rest s
      end
  end.
End ProcessRegions.

Arguments cur_chrom_id {BamWriter} _.
Arguments chrom_seq {BamWriter} _.
Arguments bam_writer {BamWriter} _.
Arguments fasta_log {BamWriter} _.
Arguments handoffs {BamWriter} _.
Arguments mkProc {BamWriter} _ _ _ _ _.

(** ** Vocabulary of the further statements *)

(** The elements of [ids] that differ from their predecessor, [prev]
    standing before the first. *)
Fixpoint changes (prev : Z) (ids : list Z) : list Z :=
  match ids with
  | [] => []
  | i :: ids' => if prev =? i then changes i ids' else i :: changes i ids'
  end.

(** [P'] is at least as strict as [P] in every threshold. *)
Definition at_least_as_strict (P P' : BamProcessor) : Prop :=
  MAX_MATE_DIST P' <= MAX_MATE_DIST P
  ∧ MIN_FLANK P <= MIN_FLANK P'
  ∧ (REMOVE_MULTIMAPPERS P = true -> REMOVE_MULTIMAPPERS P' = true)
  ∧ MIN_BP_BEFORE_INDEL P <= MIN_BP_BEFORE_INDEL P'
  ∧ MIN_READ_END_MATCH P <= MIN_READ_END_MATCH P'
  ∧ (MAXIMAL_END_MATCH_WINDOW P = MAXIMAL_END_MATCH_WINDOW P'
     ∨ MAXIMAL_END_MATCH_WINDOW P <= 0).

(** The fields of a record other than its tag data are those of [a]. *)
Definition same_core (a a' : BamAlignment) : Prop :=
  RefID a' = RefID a ∧ MateRefID a' = MateRefID a
  ∧ Position a' = Position a ∧ EndPosition a' = EndPosition a
  ∧ InsertSize a' = InsertSize a ∧ Filename a' = Filename a.

(** [a'] is [a] but for the tags XS and XE. *)
Definition region_tags_apart (a a' : BamAlignment) : Prop :=
  same_core a a'
  ∧ forall t, t ≠ "XS" -> t ≠ "XE" ->
              find_tag t (TagData a') = find_tag t (TagData a).

Section DemuxFromSpec.
Variable file_read_groups : gmap string string.

(** The demultiplexer started on given vectors: the labels found so far
    are appended to the given names, while their buckets are counted from
    the first of the given buckets. *)
Definition demux_from (names0 : list string)
           (buckets0 : list (list BamAlignment))
           (scanned : list BamAlignment) (st : Demux) : Prop :=
  let fs := first_seen (label file_read_groups <$> scanned) in
  rg_names st = names0 ++ fs
  ∧ (forall l i, rg_indices st !! l = Some i <-> fs !! i = Some l)
  ∧ size (rg_indices st) = length fs
  ∧ alignments_by_rg st
    = imap (fun j b =>
              b ++ from_option (bucket_of file_read_groups scanned) []
                     (fs !! j))
        (buckets0 ++ replicate (length fs) []).
End DemuxFromSpec.

Section HandedOnSpec.
Variable tag_ok : string -> string -> bool.
Variable file_read_groups : gmap string string.
Variable region : Region.
Variable BamWriter : Type.
Variable IsOpen : BamWriter -> bool.

(** What the buckets hold of a survivor [r]: [r] itself, or with an open
    output file what the tag step made of it. *)
Definition handed_on (w : BamWriter) (r r' : BamAlignment) : Prop :=
  if IsOpen w then tag_read tag_ok file_read_groups region r = (r', Ok tt)
  else r' = r.
End HandedOnSpec.

(** A list in which an element that comes again comes again at once. *)
Fixpoint grouped (ids : list Z) : Prop :=
  match ids with
  | [] => True
  | i :: ids' => (i ∈ ids' -> head ids' = Some i) ∧ grouped ids'
  end.

(** ** [Region::str] (region.h, lines 42-46) *)

(** [operator<<] of an [int32_t] into a stream with the default flags and
    the classic locale: the decimal digits, after a minus sign for a
    negative number. *)
Definition put_int (z : Z) : string := NilZero.string_of_int (Z.to_int z).

Definition str (r : Region) : string :=
  chrom r +:+ ":" +:+ put_int (start r) +:+ "-" +:+ put_int (stop r).

(** The character [c] occurs in [s]. *)
Fixpoint occurs (c : ascii) (s : string) : Prop :=
  match s with
  | EmptyString => False
  | String a s' => a = c ∨ occurs c s'
  end.

(** ** Sample data for the further instances *)

Definition region_a : Region := mkRegion "chr1" "a" 100 200 3.
Definition region_b : Region := mkRegion "chr1" "b" 50 180 2.
Definition region_c : Region := mkRegion "chr1" "c" 10 120 4.
Definition region_d : Region := mkRegion "chr2" "d" 5 9 2.

(** The group of [region_a] after [region_b] and [region_c] are added. *)
Definition group_abc : RegionGroup :=
  mkRegionGroup [region_c; region_b; region_a] "chr1" 10 200.

Definition sample_reader : list BamAlignment :=
  [read_wide; read_narrow; read_inside; read_edge].

Definition negative_flank_config : BamProcessor :=
  mkProcessor 1000 7 (-3) 10 15 true.
Definition no_distance_config : BamProcessor :=
  mkProcessor 0 7 5 10 15 true.
Definition plain_config : BamProcessor := mkProcessor 1000 0 5 0 0 true.

(** A tag library that refuses the XS tag. *)
Definition no_xs_ok (tag type : string) : bool :=
  negb (String.eqb tag "XS").

(** A reader that knows chr1 and chr2, yields [sample_reader] for every
    window on chr1 and cannot be positioned on chr2; the FASTA of a
    chromosome is written as its file name. *)
Definition sample_reference_id (chrom_name : string) : Z :=
  if String.eqb chrom_name "chr1" then 0
  else if String.eqb chrom_name "chr2" then 1 else -1.
Definition sample_ref_vector : list string := ["chr1"; "chr2"].
Definition sample_fasta (file dir seq : string) : outcome string := Ok file.
Definition sample_set_region (id left id' right : Z)
  : option (list BamAlignment) :=
  if id =? 0 then Some sample_reader else None.

(** An output file that is open, and one that is not. *)
Definition always_open (w : list BamAlignment) : bool := true.
Definition never_open (w : list BamAlignment) : bool := false.

(** [region_a] under another name and period. *)
Definition region_a_renamed : Region := mkRegion "chr1" "other" 100 200 7.

(** * Proofs *)

(** ** Regions and region groups *)

Lemma ascii_compare_refl a : Ascii.compare a a = Eq.
Proof. unfold Ascii.compare. apply N.compare_refl. Qed.

Lemma ascii_compare_lt_trans a b c :
  Ascii.compare a b = Lt -> Ascii.compare b c = Lt -> Ascii.compare a c = Lt.
Proof.
  unfold Ascii.compare. rewrite !N.compare_lt_iff. apply N.lt_trans.
Qed.

Lemma string_compare_refl s : String.compare s s = Eq.
Proof.
  induction s as [|a s IH]; simpl; [reflexivity|].
  by rewrite ascii_compare_refl.
Qed.

Lemma string_compare_lt_trans s t u :
  String.compare s t = Lt -> String.compare t u = Lt -> String.compare s u = Lt.
Proof.
  revert t u. induction s as [|a s IH]; intros [|b t] [|c u]; simpl; try done.
  destruct (Ascii.compare a b) eqn:Hab; try done;
    destruct (Ascii.compare b c) eqn:Hbc; try done; intros H1 H2.
  - apply Ascii.compare_eq_iff in Hab, Hbc. subst.
    rewrite ascii_compare_refl. eauto.
  - apply Ascii.compare_eq_iff in Hab. subst. by rewrite Hbc.
  - apply Ascii.compare_eq_iff in Hbc. subst. by rewrite Hab.
  - by rewrite (ascii_compare_lt_trans _ _ _ Hab Hbc).
Qed.

Lemma compare_ne0_false s t : compare_ne0 s t = false <-> s = t.
Proof.
  unfold compare_ne0. split.
  - destruct (String.compare s t) eqn:H; try done. intros _.
    by apply String.compare_eq_iff.
  - intros ->. by rewrite string_compare_refl.
Qed.

Lemma compare_ne0_true s t : compare_ne0 s t = true <-> s ≠ t.
Proof.
  rewrite <- compare_ne0_false. destruct (compare_ne0 s t); naive_solver.
Qed.

Lemma Region_ltb_cmp a b : Region_ltb a b = true <-> Region_cmp a b = Lt.
Proof.
  unfold Region_ltb, Region_cmp.
  destruct (String.compare (chrom a) (chrom b)); try done.
  destruct (Z.compare_spec (start a) (start b)) as [H|H|H].
  - rewrite H, Z.eqb_refl. simpl.
    destruct (Z.compare_spec (stop a) (stop b)) as [H'|H'|H'].
    + rewrite H', Z.eqb_refl. done.
    + destruct (Z.eqb_spec (stop a) (stop b)); [lia|]. simpl.
      rewrite Z.ltb_lt. done.
    + destruct (Z.eqb_spec (stop a) (stop b)); [lia|]. simpl.
      rewrite Z.ltb_lt. split; [lia|done].
  - destruct (Z.eqb_spec (start a) (start b)); [lia|]. simpl.
    rewrite Z.ltb_lt. done.
  - destruct (Z.eqb_spec (start a) (start b)); [lia|]. simpl.
    rewrite Z.ltb_lt. split; [lia|done].
Qed.

Lemma Region_cmp_antisym a b : Region_cmp a b = CompOpp (Region_cmp b a).
Proof.
  unfold Region_cmp. rewrite String.compare_antisym.
  destruct (String.compare (chrom b) (chrom a)); simpl; try done.
  rewrite (Z.compare_antisym (start b)).
  destruct (start b ?= start a); simpl; try done.
  apply Z.compare_antisym.
Qed.

Lemma Region_cmp_lt_trans a b c :
  Region_cmp a b = Lt -> Region_cmp b c = Lt -> Region_cmp a c = Lt.
Proof.
  unfold Region_cmp.
  destruct (String.compare (chrom a) (chrom b)) eqn:Hab; try done;
    destruct (String.compare (chrom b) (chrom c)) eqn:Hbc; try done.
  - apply String.compare_eq_iff in Hab, Hbc. rewrite Hab, Hbc.
    rewrite string_compare_refl.
    destruct (Z.compare_spec (start a) (start b)); try done;
      destruct (Z.compare_spec (start b) (start c)); try done;
      destruct (Z.compare_spec (start a) (start c)); try done; try lia.
    rewrite !Z.compare_lt_iff. lia.
  - apply String.compare_eq_iff in Hab. rewrite Hab, Hbc. done.
  - apply String.compare_eq_iff in Hbc. rewrite <- Hbc, Hab. done.
  - by rewrite (string_compare_lt_trans _ _ _ Hab Hbc).
Qed.

Lemma Region_cmp_eq_lt a b c :
  Region_cmp a b = Eq -> Region_cmp b c = Lt -> Region_cmp a c = Lt.
Proof.
  unfold Region_cmp.
  destruct (String.compare (chrom a) (chrom b)) eqn:Hab; try done.
  apply String.compare_eq_iff in Hab. rewrite Hab.
  destruct (String.compare (chrom b) (chrom c)); try done.
  destruct (Z.compare_spec (start a) (start b)); try done.
  destruct (Z.compare_spec (start b) (start c)); try done;
    destruct (Z.compare_spec (start a) (start c)); try done; try lia.
  rewrite Z.compare_eq_iff, !Z.compare_lt_iff. lia.
Qed.

Lemma Region_cmp_lt_eq a b c :
  Region_cmp a b = Lt -> Region_cmp b c = Eq -> Region_cmp a c = Lt.
Proof.
  unfold Region_cmp.
  destruct (String.compare (chrom b) (chrom c)) eqn:Hbc; try done.
  apply String.compare_eq_iff in Hbc. rewrite <- Hbc.
  destruct (String.compare (chrom a) (chrom b)); try done.
  destruct (Z.compare_spec (start b) (start c)); try done.
  destruct (Z.compare_spec (start a) (start b)); try done;
    destruct (Z.compare_spec (start a) (start c)); try done; try lia.
  rewrite Z.compare_eq_iff, !Z.compare_lt_iff. lia.
Qed.

Lemma Region_le_cmp a b : Region_le a b <-> Region_cmp a b ≠ Gt.
Proof.
  unfold Region_le. rewrite <- not_true_iff_false, Region_ltb_cmp.
  rewrite (Region_cmp_antisym a b).
  destruct (Region_cmp b a); simpl; naive_solver.
Qed.

Lemma Region_le_total a b : Region_le a b ∨ Region_le b a.
Proof.
  rewrite !Region_le_cmp, (Region_cmp_antisym b a).
  destruct (Region_cmp a b); simpl; naive_solver.
Qed.

Lemma Region_le_trans a b c : Region_le a b -> Region_le b c -> Region_le a c.
Proof.
  rewrite !Region_le_cmp.
  destruct (Region_cmp a b) eqn:Hab; try done;
    destruct (Region_cmp b c) eqn:Hbc; try done; intros _ _.
  - rewrite (Region_cmp_antisym a c).
    destruct (Region_cmp c a) eqn:Hca; simpl; try done.
    pose proof (Region_cmp_lt_eq _ _ _ Hca Hab) as Hcb.
    rewrite Region_cmp_antisym, Hcb in Hbc. done.
  - by rewrite (Region_cmp_eq_lt _ _ _ Hab Hbc).
  - by rewrite (Region_cmp_lt_eq _ _ _ Hab Hbc).
  - by rewrite (Region_cmp_lt_trans _ _ _ Hab Hbc).
Qed.

Lemma sort_insert_perm x l : sort_insert x l ≡ₚ x :: l.
Proof.
  induction l as [|y l IH]; simpl; [done|].
  destruct (Region_ltb x y); [done|].
  rewrite IH. apply perm_swap.
Qed.

Lemma std_sort_perm l : std_sort l ≡ₚ l.
Proof.
  induction l as [|x l IH]; simpl; [done|].
  unfold std_sort in *. simpl. by rewrite sort_insert_perm, IH.
Qed.

Lemma sort_insert_sorted x l :
  StronglySorted Region_le l -> StronglySorted Region_le (sort_insert x l).
Proof.
  induction 1 as [|y l Hs IH Hy]; simpl.
  - repeat constructor.
  - destruct (Region_ltb x y) eqn:Hxy.
    + assert (Hle : Region_le x y).
      { destruct (Region_le_total x y) as [?|H']; [done|].
        unfold Region_le in H'. congruence. }
      constructor; [by constructor|].
      constructor; [done|].
      eapply Forall_impl; [exact Hy|]. intros z. by apply Region_le_trans.
    + constructor; [done|].
      rewrite sort_insert_perm. by constructor.
Qed.

Lemma std_sort_sorted l : StronglySorted Region_le (std_sort l).
Proof.
  induction l as [|x l IH]; [constructor|].
  by apply sort_insert_sorted.
Qed.

Lemma add_region_same r g :
  chrom r = chrom_ g ->
  add_region r g =
    ({| regions_ := std_sort (regions_ g ++ [r]);
        chrom_ := chrom_ g;
        start_ := Z.min (start_ g) (start r);
        stop_ := Z.max (stop_ g) (stop r) |}, Ok tt).
Proof.
  intros H. apply compare_ne0_false in H.
  unfold add_region, mbind, M_bind, m_bind, m_get, when_. by rewrite H.
Qed.

Lemma add_region_other r g :
  chrom r ≠ chrom_ g ->
  add_region r g =
    (g, Died "RegionGroup can only consist of regions on a single chromosome").
Proof.
  intros H. apply compare_ne0_true in H.
  unfold add_region, mbind, M_bind, m_bind, m_get, when_. by rewrite H.
Qed.

Lemma is_minimum_snoc m l x :
  is_minimum m l -> is_minimum (Z.min m x) (l ++ [x]).
Proof.
  intros [Hin Hall]. split.
  - rewrite elem_of_app, list_elem_of_singleton.
    destruct (Z.min_spec m x) as [[_ ->]|[_ ->]]; auto.
  - rewrite Forall_app, Forall_singleton. split; [|lia].
    eapply Forall_impl; [exact Hall|]. simpl. lia.
Qed.

Lemma is_maximum_snoc m l x :
  is_maximum m l -> is_maximum (Z.max m x) (l ++ [x]).
Proof.
  intros [Hin Hall]. split.
  - rewrite elem_of_app, list_elem_of_singleton.
    destruct (Z.max_spec m x) as [[_ ->]|[_ ->]]; auto.
  - rewrite Forall_app, Forall_singleton. split; [|lia].
    eapply Forall_impl; [exact Hall|]. simpl. lia.
Qed.

Lemma is_minimum_perm m l l' : l ≡ₚ l' -> is_minimum m l -> is_minimum m l'.
Proof. intros Hp [? ?]. split; by rewrite <- Hp. Qed.

Lemma is_maximum_perm m l l' : l ≡ₚ l' -> is_maximum m l -> is_maximum m l'.
Proof. intros Hp [? ?]. split; by rewrite <- Hp. Qed.

Lemma group_inv_new r : group_inv (RegionGroup_new r).
Proof.
  repeat split; simpl; try (apply list_elem_of_singleton; done);
    try (apply Forall_singleton; lia).
  repeat constructor.
Qed.

Lemma group_inv_add r g g' :
  group_inv g -> add_region r g = (g', Ok tt) ->
  group_inv g' ∧ regions_ g' ≡ₚ regions_ g ++ [r] ∧ chrom_ g' = chrom_ g.
Proof.
  intros (Hmin & Hmax & _) Hadd.
  destruct (decide (chrom r = chrom_ g)) as [Heq|Hne].
  - rewrite (add_region_same _ _ Heq) in Hadd. injection Hadd as <-.
    unfold group_inv. simpl.
    refine (conj (conj _ (conj _ _)) (conj _ eq_refl)).
    + eapply is_minimum_perm; [|by apply is_minimum_snoc].
      by rewrite std_sort_perm, fmap_app.
    + eapply is_maximum_perm; [|by apply is_maximum_snoc].
      by rewrite std_sort_perm, fmap_app.
    + apply std_sort_sorted.
    + apply std_sort_perm.
  - rewrite (add_region_other _ _ Hne) in Hadd. discriminate.
Qed.

Lemma add_regions_inv rs : forall g,
  group_inv g -> Forall (fun r => chrom r = chrom_ g) rs ->
  exists g', add_regions rs g = (g', Ok tt)
             ∧ group_inv g' ∧ regions_ g' ≡ₚ regions_ g ++ rs.
Proof.
  induction rs as [|r rs IH]; intros g Hinv Hall.
  - exists g. by rewrite app_nil_r.
  - apply Forall_cons in Hall as [Hr Hall].
    pose proof (add_region_same _ _ Hr) as Hadd.
    destruct (group_inv_add _ _ _ Hinv Hadd) as (Hinv' & Hperm & Hc).
    destruct (IH _ Hinv') as (g' & Hrun & Hinv'' & Hperm').
    { by rewrite Hc. }
    exists g'. split; [|split; [done|]].
    + simpl. unfold mbind, M_bind, m_bind. by rewrite Hadd.
    + rewrite Hperm', Hperm. by rewrite <- app_assoc.
Qed.

(** C3.  A group built by the constructor from [r0] and then given, by
    [add_region], any regions [rs] of [r0]'s chromosome: after each
    insertion (the first [k] of them, for every [k]) no insertion has
    aborted, the members are [r0] and the regions inserted so far, the
    group's start is the minimum of the members' starts, its stop is the
    maximum of their stops, and the member sequence is sorted by the
    Region order (chromosome, then start, then stop). *)
Theorem RegionGroup_invariant (r0 : Region) (rs : list Region) :
  Forall (fun r => chrom r = chrom r0) rs ->
  forall k : nat, exists g,
    add_regions (take k rs) (RegionGroup_new r0) = (g, Ok tt)
    ∧ regions_ g ≡ₚ r0 :: take k rs
    ∧ is_minimum (start_ g) (start <$> regions_ g)
    ∧ is_maximum (stop_ g) (stop <$> regions_ g)
    ∧ StronglySorted Region_le (regions_ g).
Proof.
  intros Hall k.
  destruct (add_regions_inv (take k rs) (RegionGroup_new r0))
    as (g & Hrun & (Hmin & Hmax & Hs) & Hperm).
  - apply group_inv_new.
  - by apply Forall_take.
  - by exists g.
Qed.

Lemma RegionGroup_invariant_witness :
  exists g,
    add_regions [mkRegion "chr1" "b" 50 180 2; mkRegion "chr1" "c" 10 120 4]
      (RegionGroup_new (mkRegion "chr1" "a" 100 200 3)) = (g, Ok tt)
    ∧ start_ g = 10 ∧ stop_ g = 200
    ∧ StronglySorted Region_le (regions_ g).
Proof.
  destruct (RegionGroup_invariant (mkRegion "chr1" "a" 100 200 3)
              [mkRegion "chr1" "b" 50 180 2; mkRegion "chr1" "c" 10 120 4])
    with (k := 2%nat) as (g & Hrun & _ & _ & _ & Hs).
  - repeat constructor.
  - exists g. split; [exact Hrun|].
    vm_compute in Hrun. injection Hrun as <-. 
    repeat split; [vm_compute; reflexivity.. | exact Hs].
Defined.

(** C8.  Inserting a region whose chromosome name differs from the
    group's aborts the run with the usage message, whatever the two names
    are, and the group at the abort is the group before the call. *)
Theorem add_region_cross_chromosome_fatal (g : RegionGroup) (region : Region) :
  chrom region ≠ chrom_ g ->
  add_region region g =
    (g, Died "RegionGroup can only consist of regions on a single chromosome").
Proof. apply add_region_other. Qed.

Lemma add_region_cross_chromosome_fatal_witness :
  add_region (mkRegion "chr2" "" 5 9 2)
    (RegionGroup_new (mkRegion "chr1" "" 100 200 3)) =
    (RegionGroup_new (mkRegion "chr1" "" 100 200 3),
     Died "RegionGroup can only consist of regions on a single chromosome").
Proof.
  apply (add_region_cross_chromosome_fatal
           (RegionGroup_new (mkRegion "chr1" "" 100 200 3))
           (mkRegion "chr2" "" 5 9 2)).
  simpl. discriminate.
Defined.

(** ** The filter cascade *)

Lemma wrap32_id z : in_int32 z -> wrap32 z = z.
Proof.
  unfold in_int32, INT_MIN, INT_MAX, wrap32. intros H.
  rewrite Z.mod_small; lia.
Qed.

Ltac bool_to_Z H :=
  repeat first
    [ rewrite orb_true_iff in H | rewrite orb_false_iff in H
    | rewrite andb_true_iff in H | rewrite andb_false_iff in H
    | rewrite negb_true_iff in H | rewrite negb_false_iff in H
    | rewrite Z.gtb_ltb in H
    | rewrite Z.ltb_lt in H | rewrite Z.ltb_ge in H
    | rewrite Z.eqb_eq in H | rewrite Z.eqb_neq in H ].

Ltac decide_cond :=
  match goal with
  | |- ?c = bool_decide _ =>
      let E := fresh "E" in
      destruct c eqn:E; symmetry;
      [ apply bool_decide_eq_true | apply bool_decide_eq_false ];
      bool_to_Z E; simpl
  end.

Lemma int_incr_small x : 0 <= x < INT_MAX -> int_incr x = x + 1.
Proof.
  intros H. unfold int_incr. apply wrap32_id.
  unfold in_int32, INT_MIN, INT_MAX in *. lia.
Qed.

Lemma counter_of_bump r r' c :
  counter_of r (bump r' c)
  = if decide (r = r') then int_incr (counter_of r c) else counter_of r c.
Proof. destruct c, r, r'; reflexivity. Qed.

Lemma counter_of_bump_read_count r c :
  counter_of r (bump_read_count c) = counter_of r c.
Proof. destruct c, r; reflexivity. Qed.

(** What an iteration that takes the arm of [r] does to the counters and
    to [region_alignments], while the counter of [r] does not overflow. *)
Lemma record_failure_counters r a st :
  0 <= counter_of r (counts st) < INT_MAX ->
  counter_of r (counts (record_outcome (Some r) a st))
  = counter_of r (counts st) + 1
  ∧ (forall r', r' ≠ r ->
       counter_of r' (counts (record_outcome (Some r) a st))
       = counter_of r' (counts st))
  ∧ region_alignments (record_outcome (Some r) a st) = region_alignments st.
Proof.
  intros Hr. simpl. split; [|split; [|done]].
  - rewrite counter_of_bump, decide_True by done.
    rewrite counter_of_bump_read_count. by apply int_incr_small.
  - intros r' Hne. rewrite counter_of_bump, decide_False by done.
    apply counter_of_bump_read_count.
Qed.

Section CascadeFacts.
Variable AF : AlignmentFilters.
Variable P : BamProcessor.
Variable chrom_seq : string.
Variable region : Region.

Abbreviation pred := (holds AF P chrom_seq region).
Abbreviation arm := (classify AF P chrom_seq region).
Abbreviation first_fail := (first_failure AF P chrom_seq region).
Abbreviation step := (filter_step AF P chrom_seq region).
Abbreviation run := (filter_reads AF P chrom_seq region).
Abbreviation step_noflank := (filter_step_noflank AF P chrom_seq region).
Abbreviation run_noflank := (filter_reads_noflank AF P chrom_seq region).
Abbreviation passes := (passes_all AF P chrom_seq region).

Lemma filter_step_classify st a :
  step st a = record_outcome (arm a) a st.
Proof.
  unfold filter_step, classify, record_outcome.
  repeat match goal with
         | |- context [if ?c then _ else _] => destruct c; try reflexivity
         end.
Qed.

Lemma cond_diff_chrom a :
  negb (RefID a =? MateRefID a) = bool_decide (¬ pred DiffChromMate a).
Proof. decide_cond; tauto. Qed.

Lemma cond_unmapped a :
  (InsertSize a =? 0) = bool_decide (¬ pred UnmappedMate a).
Proof. decide_cond; tauto. Qed.

Lemma cond_spanning a :
  (Position a >? start region) || (EndPosition a <? stop region)
  = bool_decide (¬ pred NotSpanning a).
Proof. decide_cond; lia. Qed.

Lemma cond_insert a :
  abs_defined a ->
  (int_abs (InsertSize a) >? MAX_MATE_DIST P)
  = bool_decide (¬ pred ExcessInsertSize a).
Proof.
  intros H. unfold int_abs. rewrite (wrap32_id _ H). decide_cond; lia.
Qed.

Lemma cond_multimapped a :
  REMOVE_MULTIMAPPERS P && HasTag "XA" a
  = bool_decide (¬ pred Multimapped a).
Proof.
  decide_cond.
  - destruct E as [-> ->]. intros H. by specialize (H eq_refl).
  - intros H. apply H. intros Hr. destruct E as [E|E]; congruence.
Qed.

Lemma cond_flank a :
  flank_defined P region ->
  (Position a >? int_sub (start region) (MIN_FLANK P))
  || (EndPosition a <? int_add (stop region) (MIN_FLANK P))
  = bool_decide (¬ pred InsufficientFlank a).
Proof.
  intros [H1 H2]. unfold int_sub, int_add.
  rewrite (wrap32_id _ H1), (wrap32_id _ H2). decide_cond; lia.
Qed.

Lemma cond_indel a :
  (MIN_BP_BEFORE_INDEL P >? 0)
  && (let num_bps := GetEndDistToIndel AF a in
      (negb (fst num_bps =? -1) && (fst num_bps <? MIN_BP_BEFORE_INDEL P))
      || (negb (snd num_bps =? -1) && (snd num_bps <? MIN_BP_BEFORE_INDEL P)))
  = bool_decide (¬ pred IndelTooClose a).
Proof. cbv zeta. decide_cond; lia. Qed.

Lemma cond_window a :
  (MAXIMAL_END_MATCH_WINDOW P >? 0)
  && negb (HasLargestEndMatches AF a chrom_seq 0
             (MAXIMAL_END_MATCH_WINDOW P) (MAXIMAL_END_MATCH_WINDOW P))
  = bool_decide (¬ pred NonMaximalEndMatch a).
Proof.
  decide_cond.
  - destruct E as [E1 E2]. intros H. specialize (H E1). congruence.
  - intros H. apply H. intros Hw. destruct E as [E|E]; [lia|].
    by destruct (HasLargestEndMatches _ _ _ _ _ _).
Qed.

Lemma cond_end_match a :
  (MIN_READ_END_MATCH P >? 0)
  && (let match_lens := GetNumEndMatches AF a chrom_seq 0 in
      (fst match_lens <? MIN_READ_END_MATCH P)
      || (snd match_lens <? MIN_READ_END_MATCH P))
  = bool_decide (¬ pred InsufficientEndMatch a).
Proof. cbv zeta. decide_cond; lia. Qed.

Lemma classify_first_failure a :
  flank_defined P region -> abs_defined a ->
  arm a = first_fail a.
Proof.
  intros Hf Ha. unfold classify.
  rewrite cond_diff_chrom, cond_unmapped, cond_spanning, (cond_insert _ Ha),
    cond_multimapped, (cond_flank _ Hf), cond_indel, cond_window,
    cond_end_match.
  unfold first_failure, cascade_order.
  repeat (rewrite filter_cons; case_bool_decide;
          [ rewrite decide_True by tauto; reflexivity
          | rewrite decide_False by tauto ]).
  reflexivity.
Qed.

Lemma first_failure_None a :
  first_fail a = None
  <-> passes a.
Proof.
  unfold first_failure, passes_all. rewrite head_None.
  rewrite Forall_forall. split.
  - intros H r Hr.
    destruct (decide (pred r a)) as [|Hn]; [done|].
    assert (r ∈ filter (λ r, ¬ pred r a) (cascade_order)) as Hin
        by (by apply list_elem_of_filter).
    rewrite H in Hin. by apply elem_of_nil in Hin.
  - intros H. destruct (filter _ _) as [|r l] eqn:E; [done|].
    assert (r ∈ filter (λ r, ¬ pred r a) (cascade_order)) as Hin
        by (rewrite E; left).
    apply list_elem_of_filter in Hin as [Hn Hin]. by destruct Hn; apply H.
Qed.

Lemma first_failure_Some a r :
  first_fail a = Some r ->
  ¬ pred r a.
Proof.
  unfold first_failure. intros H. apply head_Some_elem_of in H.
  by apply list_elem_of_filter in H as [? _].
Qed.

Lemma filter_reads_from st reader :
  fold_left step reader st
  = fold_left (fun st a => record_outcome (arm a) a st) reader st.
Proof.
  revert st. induction reader as [|a l IH]; intros st; simpl; [done|].
  by rewrite filter_step_classify, IH.
Qed.

Lemma survivors_from st reader :
  region_alignments (fold_left step reader st)
  = region_alignments st ++ filter (fun a => arm a = None) reader.
Proof.
  revert st. induction reader as [|a l IH]; intros st; simpl.
  - by rewrite app_nil_r.
  - rewrite IH, filter_step_classify.
    destruct (arm a) as [r|] eqn:E; simpl.
    + by rewrite filter_cons_False by congruence.
    + rewrite filter_cons_True by done. by rewrite <- app_assoc.
Qed.

Lemma passes_all_unfold a :
  passes a <->
  pred DiffChromMate a ∧ pred UnmappedMate a ∧ pred NotSpanning a
  ∧ pred ExcessInsertSize a ∧ pred Multimapped a
  ∧ pred InsufficientFlank a ∧ pred IndelTooClose a
  ∧ pred NonMaximalEndMatch a ∧ pred InsufficientEndMatch a.
Proof.
  unfold passes_all, cascade_order.
  rewrite !Forall_cons, Forall_nil. tauto.
Qed.

(** C1.  Where the source's arithmetic is defined, the surviving set is
    the input stream filtered, in order, by the conjunction of the nine
    predicates; so every record in it has a mate on its own reference, a
    nonzero insert size, spans the region, has an absolute insert size
    within the maximum mate distance, has no XA tag when multimappers are
    rejected, extends the minimum flank beyond both region boundaries, has
    each end's distance to the nearest indel equal to -1 or at least the
    minimum, has the largest end matches in the window, and has perfect
    end matches of at least the minimum; the last three when their
    threshold is positive. *)
Theorem survivors_pass_every_predicate (reader : list BamAlignment) :
  flank_defined P region ->
  Forall abs_defined reader ->
  region_alignments (run reader)
  = filter passes reader
  ∧ forall a,
      a ∈ region_alignments (run reader) ->
      pred DiffChromMate a ∧ pred UnmappedMate a ∧ pred NotSpanning a
      ∧ pred ExcessInsertSize a ∧ pred Multimapped a
      ∧ pred InsufficientFlank a ∧ pred IndelTooClose a
      ∧ pred NonMaximalEndMatch a ∧ pred InsufficientEndMatch a.
Proof.
  intros Hf Ha.
  assert (Heq : region_alignments (run reader)
                = filter passes reader).
  { unfold filter_reads. rewrite survivors_from. simpl.
    induction Ha as [|a l Ha Hl IH]; [done|].
    rewrite !filter_cons, IH.
    rewrite (classify_first_failure _ Hf Ha).
    destruct (decide (passes a)) as [Hp|Hp].
    - rewrite decide_True; [done|]. by apply first_failure_None.
    - rewrite decide_False; [done|]. by rewrite first_failure_None. }
  split; [exact Heq|].
  intros a. rewrite Heq, list_elem_of_filter, passes_all_unfold. tauto.
Qed.

(** C2.  One iteration of the loop attributes a failing record to the
    first predicate, in the fixed order, that it fails: that predicate's
    counter goes up by one (while it does not overflow), the eight other
    failure counters keep their values and the record is not added to the
    surviving set.  In particular a record that passes the two mate checks
    and fails both the spanning check and the indel check is counted as
    not spanning: [not_spanning] goes up by one and [bp_before_indel] is
    left alone. *)
Theorem attribution_is_first_failure (st : FilterState) (a : BamAlignment) :
  flank_defined P region -> abs_defined a ->
  (forall r,
     first_fail a = Some r ->
     0 <= counter_of r (counts st) < INT_MAX ->
     counter_of r (counts (step st a)) = counter_of r (counts st) + 1
     ∧ (forall r', r' ≠ r ->
          counter_of r' (counts (step st a)) = counter_of r' (counts st))
     ∧ region_alignments (step st a) = region_alignments st)
  ∧ (pred DiffChromMate a -> pred UnmappedMate a ->
     ¬ pred NotSpanning a -> ¬ pred IndelTooClose a ->
     0 <= not_spanning (counts st) < INT_MAX ->
     first_fail a = Some NotSpanning
     ∧ not_spanning (counts (step st a)) = not_spanning (counts st) + 1
     ∧ bp_before_indel (counts (step st a))
       = bp_before_indel (counts st)).
Proof.
  intros Hf Ha.
  assert (Hstep : step st a = record_outcome (first_fail a) a st)
    by (by rewrite filter_step_classify, classify_first_failure).
  split.
  - intros r Hr Hc. rewrite Hstep, Hr. by apply record_failure_counters.
  - intros H1 H2 H3 _ Hc.
    assert (Hff : first_fail a = Some NotSpanning).
    { unfold first_failure, cascade_order.
      rewrite filter_cons_False by tauto.
      rewrite filter_cons_False by tauto.
      by rewrite filter_cons_True by tauto. }
    split; [exact Hff|]. rewrite Hstep, Hff.
    destruct (record_failure_counters NotSpanning a st Hc) as (Hup & Hrest & _).
    split; [exact Hup|]. by apply (Hrest IndelTooClose).
Qed.

(** C9.  Region [100,200), minimum flank 5, alignment [97,203) that passes
    the mate-chromosome, unmapped-mate, insert-size and multimapper
    checks: it spans the region, reaches 3 bases beyond either boundary,
    the first predicate it fails is the flank check, [flank_len] goes up
    by one (while it does not overflow), no other failure counter moves
    and the record is not added to the surviving set. *)
Theorem scenario_insufficient_flank (st : FilterState) (a : BamAlignment) :
  start region = 100 -> stop region = 200 -> MIN_FLANK P = 5 ->
  Position a = 97 -> EndPosition a = 203 ->
  pred DiffChromMate a -> pred UnmappedMate a ->
  pred ExcessInsertSize a -> pred Multimapped a ->
  abs_defined a ->
  0 <= flank_len (counts st) < INT_MAX ->
  pred NotSpanning a
  ∧ start region - Position a = 3 ∧ EndPosition a - stop region = 3
  ∧ first_fail a = Some InsufficientFlank
  ∧ flank_len (counts (step st a)) = flank_len (counts st) + 1
  ∧ (forall r, r ≠ InsufficientFlank ->
       counter_of r (counts (step st a)) = counter_of r (counts st))
  ∧ region_alignments (step st a) = region_alignments st.
Proof.
  intros Hs He Hm Hp Hq H1 H2 H4 H5 Ha Hc.
  assert (H3 : pred NotSpanning a) by (simpl; lia).
  assert (Hf : flank_defined P region).
  { unfold flank_defined, in_int32, INT_MIN, INT_MAX. lia. }
  assert (Hff : first_fail a = Some InsufficientFlank).
  { unfold first_failure, cascade_order.
    do 5 (rewrite filter_cons_False by tauto).
    rewrite filter_cons_True; [done|]. simpl. lia. }
  split; [exact H3|]. split; [lia|]. split; [lia|]. split; [exact Hff|].
  rewrite filter_step_classify, (classify_first_failure _ Hf Ha), Hff.
  exact (record_failure_counters InsufficientFlank a st Hc).
Qed.

Lemma filter_step_zero_flank st a :
  MIN_FLANK P = 0 -> in_int32 (start region) -> in_int32 (stop region) ->
  step st a = step_noflank st a.
Proof.
  intros Hm Hs He.
  unfold filter_step, filter_step_noflank, int_sub, int_add.
  rewrite Hm, Z.sub_0_r, Z.add_0_r, (wrap32_id _ Hs), (wrap32_id _ He).
  destruct (negb _); [done|]. destruct (InsertSize a =? 0); [done|].
  destruct ((Position a >? start region) || (EndPosition a <? stop region));
    done.
Qed.

(** C5.  With a minimum flank of 0 the surviving set of every stream is
    the one the loop produces with the flank check taken out. *)
Theorem zero_flank_disables_check (reader : list BamAlignment) :
  MIN_FLANK P = 0 -> in_int32 (start region) -> in_int32 (stop region) ->
  region_alignments (run reader)
  = region_alignments (run_noflank reader).
Proof.
  intros Hm Hs He. f_equal.
  unfold filter_reads, filter_reads_noflank.
  generalize init_state.
  induction reader as [|a l IH]; intros st; simpl; [done|].
  by rewrite IH, filter_step_zero_flank.
Qed.

Lemma counted_step n st a :
  n < INT_MAX -> counted n st -> counted (n + 1) (step st a).
Proof.
  intros Hn. rewrite filter_step_classify.
  destruct st as [[rc dc um ns ins mm fl bi ew ne] l].
  unfold counted, failures. simpl. intros H.
  destruct (arm a) as [[]|]; simpl;
    rewrite ?length_app; simpl;
    rewrite ?int_incr_small by lia; lia.
Qed.

Lemma counted_loop reader : forall n st,
  n + Z.of_nat (length reader) <= INT_MAX -> counted n st ->
  counted (n + Z.of_nat (length reader)) (fold_left step reader st).
Proof.
  induction reader as [|a l IH]; intros n st Hn Hc.
  - simpl. by rewrite Z.add_0_r.
  - rewrite length_cons, Nat2Z.inj_succ in *.
    replace (n + Z.succ (Z.of_nat (length l)))
      with ((n + 1) + Z.of_nat (length l)) by lia.
    simpl fold_left. apply IH; [lia|]. apply counted_step; [lia|done].
Qed.

(** C10.  For a stream short enough for an [int] counter, [read_count]
    is the number of records read, and it equals the sum of the nine
    failure counters plus the size of the surviving set. *)
Theorem every_read_counted_once (reader : list BamAlignment) :
  Z.of_nat (length reader) <= INT_MAX ->
  read_count (counts (run reader)) = Z.of_nat (length reader)
  ∧ read_count (counts (run reader))
    = failures (counts (run reader))
      + Z.of_nat (length (region_alignments (run reader))).
Proof.
  intros Hn.
  destruct (counted_loop reader 0 init_state) as (H1 & H2 & _).
  - lia.
  - unfold counted, failures. simpl. lia.
  - unfold filter_reads. rewrite H1, H2. lia.
Qed.
End CascadeFacts.

(** ** Annotation *)

Lemma find_tag_app t l l' :
  find_tag t (l ++ l')
  = match find_tag t l with Some x => Some x | None => find_tag t l' end.
Proof.
  induction l as [|x l IH]; simpl; [done|]. by case_decide.
Qed.

Lemma remove_first_absent t l : find_tag t l = None -> remove_first t l = l.
Proof.
  induction l as [|x l IH]; simpl; [done|].
  case_decide; [done|]. intros Hl. by rewrite IH.
Qed.

Lemma remove_first_snoc t l x :
  tag_name x ≠ t -> remove_first t (l ++ [x]) = remove_first t l ++ [x].
Proof.
  intros Hx. induction l as [|y l IH]; simpl.
  - by rewrite decide_False.
  - case_decide; [done|]. by rewrite IH.
Qed.

Lemma remove_first_last t l x :
  find_tag t l = None -> tag_name x = t -> remove_first t (l ++ [x]) = l.
Proof.
  intros Hl Hx. induction l as [|y l IH]; simpl in *.
  - by rewrite decide_True.
  - case_decide; [done|]. by rewrite IH.
Qed.

Lemma find_tag_remove_first_ne t t' l :
  t ≠ t' -> find_tag t (remove_first t' l) = find_tag t l.
Proof.
  intros Hne. induction l as [|x l IH]; simpl; [done|].
  destruct (decide (tag_name x = t')) as [Ht'|Ht']; simpl.
  - rewrite decide_False by congruence. done.
  - by rewrite IH.
Qed.

Lemma HasTag_set t l a :
  HasTag t (set_TagData l a)
  = match find_tag t l with Some _ => true | None => false end.
Proof. done. Qed.

(** [if (HasTag(t)) RemoveTag(t)] is [RemoveTag(t)]. *)
Lemma guarded_remove t a :
  TagData (if HasTag t a then RemoveTag t a else a)
  = remove_first t (TagData a).
Proof.
  unfold HasTag. destruct (find_tag t (TagData a)) eqn:E; [done|].
  by rewrite remove_first_absent.
Qed.

Lemma restamp_tags base xs xe :
  tag_name xs = "XS" -> tag_name xe = "XE" ->
  find_tag "XS" base = None -> find_tag "XE" base = None ->
  remove_first "XS" (base ++ [xs; xe]) = base ++ [xe]
  ∧ remove_first "XE" (remove_first "XE" ((base ++ [xe]) ++ [xs]))
    = base ++ [xs].
Proof.
  intros Hxs Hxe Hbs Hbe. split.
  - change [xs; xe] with ([xs] ++ [xe]).
    rewrite app_assoc, (remove_first_snoc "XS" (base ++ [xs]) xe)
      by (by rewrite Hxe).
    by rewrite (remove_first_last "XS" base xs).
  - rewrite (remove_first_snoc "XE" (base ++ [xe]) xs) by (by rewrite Hxs).
    rewrite (remove_first_last "XE" base xe) by done.
    rewrite (remove_first_snoc "XE" base xs) by (by rewrite Hxs).
    by rewrite (remove_first_absent "XE" base).
Qed.

Section TagFacts.
Variable tag_ok : string -> string -> bool.
Variable file_read_groups : gmap string string.
Variable region : Region.

Abbreviation xs_entry := (xs_entry region).
Abbreviation xe_entry := (xe_entry region).
Abbreviation annotated := (annotated tag_ok region).

Abbreviation stamp := (tag_read tag_ok file_read_groups region).

Lemma AddTag_true t ty v a a' :
  AddTag tag_ok t ty v a = (true, a') ->
  tag_ok t ty = true ∧ find_tag t (TagData a) = None
  ∧ a' = set_TagData (TagData a ++ [mkTag t ty v]) a.
Proof.
  unfold AddTag, HasTag. destruct (tag_ok t ty); simpl; [|done].
  destruct (find_tag t (TagData a)); [done|]. by intros [= <-].
Qed.

Lemma AddTag_absent t ty v a :
  tag_ok t ty = true -> find_tag t (TagData a) = None ->
  AddTag tag_ok t ty v a = (true, set_TagData (TagData a ++ [mkTag t ty v]) a).
Proof. unfold AddTag, HasTag. by intros -> ->. Qed.

Lemma AddTag_RG v a :
  let a' := snd (AddTag tag_ok "RG" "Z" v a) in
  Filename a' = Filename a
  ∧ (tag_ok "RG" "Z" = false ∨ is_Some (find_tag "RG" (TagData a')))
  ∧ ((tag_ok "RG" "Z" = false ∨ is_Some (find_tag "RG" (TagData a))) -> a' = a).
Proof.
  unfold AddTag, HasTag. destruct (tag_ok "RG" "Z"); simpl; [|by eauto].
  destruct (find_tag "RG" (TagData a)) eqn:E; simpl.
  - rewrite E. eauto.
  - rewrite find_tag_app, E. simpl. split; [done|]. split; [eauto|].
    intros [?|[? ?]]; done.
Qed.

Lemma tag_read_unfold read :
  stamp read =
    let rg_tag := "lobSTR;" +:+ label_of file_read_groups (Filename read)
                  +:+ ";" +:+ label_of file_read_groups (Filename read) in
    let r1 := snd (AddTag tag_ok "RG" "Z" (TagString rg_tag) read) in
    let r2 := if HasTag "XS" r1 then RemoveTag "XS" r1 else r1 in
    match AddTag tag_ok "XS" "I" (TagInt (start region)) r2 with
    | (false, r3) => (r3, Died "Failed to modify XS tag")
    | (true, r3) =>
        let r4 := if HasTag "XE" r3 then RemoveTag "XE" r3 else r3 in
        match EditTag tag_ok "XE" "I" (TagInt (stop region)) r4 with
        | (false, r5) => (r5, Died "Failed to modify XE tag")
        | (true, r5) => (r5, Ok tt)
        end
    end.
Proof.
  unfold tag_read, mbind, M_bind, m_bind, m_get, m_call, m_modify,
    when_, printErrorAndDie, mret, M_ret, m_ret.
  cbv zeta.
  destruct (AddTag tag_ok "RG" "Z" _ read) as [ok1 r1]. simpl.
  destruct (HasTag "XS" r1); simpl.
  - destruct (AddTag tag_ok "XS" "I" _ _) as [[] r3]; simpl; [|done].
    destruct (HasTag "XE" r3); simpl;
      by destruct (EditTag tag_ok "XE" "I" _ _) as [[] r5].
  - destruct (AddTag tag_ok "XS" "I" _ _) as [[] r3]; simpl; [|done].
    destruct (HasTag "XE" r3); simpl;
      by destruct (EditTag tag_ok "XE" "I" _ _) as [[] r5].
Qed.

Lemma guarded_remove_eq t a :
  (if HasTag t a then RemoveTag t a else a) = RemoveTag t a.
Proof.
  unfold HasTag, RemoveTag. destruct (find_tag t (TagData a)) eqn:E; [done|].
  rewrite remove_first_absent by done. by destruct a.
Qed.

Lemma tag_read_ok read read1 :
  stamp read = (read1, Ok tt) ->
  annotated (TagData read1) ∧ Filename read1 = Filename read.
Proof.
  rewrite tag_read_unfold. cbv zeta.
  match goal with |- context [AddTag tag_ok "RG" "Z" ?v read] =>
    destruct (AddTag_RG v read) as (Hfile & Hrg & _);
    set (r1 := snd (AddTag tag_ok "RG" "Z" v read)) in *
  end.
  rewrite guarded_remove_eq.
  destruct (AddTag tag_ok "XS" "I" _ _) as [[] r3] eqn:E3; [|done].
  apply AddTag_true in E3 as (Hxs & Hno_xs & ->).
  unfold EditTag. rewrite !guarded_remove_eq.
  destruct (AddTag tag_ok "XE" "I" _ _) as [[] r5] eqn:E5; [|done].
  apply AddTag_true in E5 as (Hxe & Hno_xe & ->).
  intros [= <-]. simpl in *.
  rewrite !remove_first_snoc in * by done.
  rewrite find_tag_app in Hno_xe.
  set (base := remove_first "XE" (remove_first "XE" (remove_first "XS" (TagData r1)))) in *.
  destruct (find_tag "XE" base) eqn:Hb; [done|].
  split; [|done].
  exists base. split; [by rewrite <- app_assoc|].
  split; [|split; [done|]].
  - subst base. by rewrite 2!find_tag_remove_first_ne by done.
  - subst base. by rewrite 3!find_tag_remove_first_ne by done.
Qed.

Lemma tag_read_annotated read :
  tag_ok "XS" "I" = true -> tag_ok "XE" "I" = true ->
  annotated (TagData read) ->
  stamp read = (read, Ok tt).
Proof.
  intros Hxs Hxe (base & Hts & Hbxs & Hbxe & Hrg).
  destruct (restamp_tags base xs_entry xe_entry) as [Hrm1 Hrm2]; try done.
  unfold xs_entry, xe_entry in *.
  rewrite tag_read_unfold. cbv zeta.
  match goal with |- context [AddTag tag_ok "RG" "Z" ?v read] =>
    destruct (AddTag_RG v read) as (_ & _ & Hr1)
  end.
  rewrite Hr1.
  2:{ rewrite Hts, find_tag_app. destruct Hrg as [?|[x ->]]; eauto. }
  rewrite guarded_remove_eq.
  assert (H2 : remove_first "XS" (TagData read)
               = base ++ [mkTag "XE" "I" (TagInt (stop region))])
    by (by rewrite Hts).
  rewrite AddTag_absent; [|done|].
  2:{ simpl. by rewrite H2, find_tag_app, Hbxs. }
  unfold EditTag. rewrite !guarded_remove_eq.
  rewrite AddTag_absent; [|done|]; simpl; rewrite H2, Hrm2.
  - rewrite <- app_assoc. simpl. rewrite <- Hts. by destruct read.
  - by rewrite find_tag_app, Hbxe.
Qed.

Lemma annotated_values tags :
  annotated tags ->
  find_tag "XS" tags = Some xs_entry ∧ find_tag "XE" tags = Some xe_entry.
Proof.
  intros (base & -> & Hxs & Hxe & _).
  rewrite !find_tag_app, Hxs, Hxe. done.
Qed.

Lemma tag_read_ok_flags read read1 :
  stamp read = (read1, Ok tt) ->
  tag_ok "XS" "I" = true ∧ tag_ok "XE" "I" = true.
Proof.
  rewrite tag_read_unfold. cbv zeta.
  destruct (AddTag tag_ok "XS" "I" _ _) as [[] r3] eqn:E3; [|done].
  apply AddTag_true in E3 as (Hxs & _ & _).
  destruct (EditTag tag_ok "XE" "I" _ _) as [[] r5] eqn:E5; [|done].
  apply AddTag_true in E5 as (Hxe & _ & _). done.
Qed.

(** C6.  If the tag step succeeds on a record, then on the record it
    produced it succeeds again and changes nothing: the RG, XS and XE
    values after the second application are those after the first, XS
    and XE being the region's start and stop. *)
Theorem annotation_idempotent (read read1 : BamAlignment) :
  stamp read = (read1, Ok tt) ->
  exists read2,
    stamp read1 = (read2, Ok tt)
    ∧ read2 = read1
    ∧ GetTag "RG" read2 = GetTag "RG" read1
    ∧ GetTag "XS" read2 = GetTag "XS" read1
    ∧ GetTag "XE" read2 = GetTag "XE" read1
    ∧ GetTag "XS" read1 = Some (TagInt (start region))
    ∧ GetTag "XE" read1 = Some (TagInt (stop region)).
Proof.
  intros H.
  destruct (tag_read_ok _ _ H) as [Hann _].
  destruct (tag_read_ok_flags _ _ H) as [Hxs Hxe].
  exists read1. split; [by apply tag_read_annotated|]. split; [done|].
  destruct (annotated_values _ Hann) as [Hvs Hve].
  unfold GetTag. by rewrite Hvs, Hve.
Qed.

(** The tag step aborts only where the source tests a result: at the XS
    add and at the XE edit.  No abort comes from the RG add. *)
Lemma tag_read_abort_messages read r msg :
  stamp read = (r, Died msg) ->
  msg = "Failed to modify XS tag" ∨ msg = "Failed to modify XE tag".
Proof.
  rewrite tag_read_unfold. cbv zeta.
  destruct (AddTag tag_ok "XS" "I" _ _) as [[] r3]; [|intros [= _ <-]; by left].
  destruct (EditTag tag_ok "XE" "I" _ _) as [[] r5]; [done|].
  intros [= _ <-]. by right.
Qed.

(** A failed XS add is fatal. *)
Lemma tag_read_XS_failure_fatal read :
  tag_ok "XS" "I" = false ->
  snd (stamp read) = Died "Failed to modify XS tag".
Proof.
  intros Hxs. rewrite tag_read_unfold. cbv zeta.
  unfold AddTag at 1. by rewrite Hxs.
Qed.

(** A failed XE edit is fatal. *)
Lemma tag_read_XE_failure_fatal read :
  tag_ok "XS" "I" = true -> tag_ok "XE" "I" = false ->
  snd (stamp read) = Died "Failed to modify XS tag"
  ∨ snd (stamp read) = Died "Failed to modify XE tag".
Proof.
  intros Hxs Hxe. rewrite tag_read_unfold. cbv zeta.
  destruct (AddTag tag_ok "XS" "I" _ _) as [[] r3]; [|by left].
  unfold EditTag, AddTag. rewrite Hxe. by right.
Qed.

(** A failed write is fatal. *)
Lemma annotate_read_save_failure_fatal (BamWriter : Type)
      (SaveAlignment : BamAlignment -> BamWriter -> bool * BamWriter)
      read read' w w' :
  stamp read = (read', Ok tt) ->
  SaveAlignment read' w = (false, w') ->
  annotate_read tag_ok file_read_groups region BamWriter SaveAlignment read w
  = (w', Died "Failed to save alignment for STR-spanning read").
Proof.
  intros Ht Hs. unfold annotate_read. rewrite Ht.
  unfold mbind, M_bind, m_bind, m_call. by rewrite Hs.
Qed.

(** A failed RG add changes nothing and stops nothing: the step goes on
    from the record as it was. *)
Lemma AddTag_failure_keeps_record t ty v a :
  fst (AddTag tag_ok t ty v a) = false -> snd (AddTag tag_ok t ty v a) = a.
Proof.
  unfold AddTag. destruct (tag_ok t ty); simpl; [|done].
  by destruct (HasTag t a).
Qed.
End TagFacts.

(** ** The demultiplexer *)

Lemma elem_of_first_seen x l : x ∈ first_seen l <-> x ∈ l.
Proof.
  induction l as [|y l IH]; simpl; [done|].
  rewrite !elem_of_cons, list_elem_of_filter, IH.
  destruct (decide (x = y)); tauto.
Qed.

Lemma NoDup_first_seen l : NoDup (first_seen l).
Proof.
  induction l as [|y l IH]; simpl; constructor.
  - rewrite list_elem_of_filter. tauto.
  - by apply NoDup_filter.
Qed.

Lemma first_seen_snoc l x :
  first_seen (l ++ [x])
  = if decide (x ∈ l) then first_seen l else first_seen l ++ [x].
Proof.
  induction l as [|y l IH]; [done|].
  change (first_seen ((y :: l) ++ [x]))
    with (y :: filter (fun z => z ≠ y) (first_seen (l ++ [x]))).
  change (first_seen (y :: l))
    with (y :: filter (fun z => z ≠ y) (first_seen l)).
  - rewrite IH. destruct (decide (x ∈ l)) as [Hin|Hin].
    + rewrite decide_True by (by right). done.
    + rewrite filter_app. destruct (decide (x = y)) as [->|Hne].
      * rewrite decide_True by left.
        rewrite (filter_cons_False _ y) by tauto. by rewrite app_nil_r.
      * rewrite decide_False by (rewrite elem_of_cons; tauto).
        by rewrite filter_cons_True by done.
Qed.

Local Open Scope nat_scope.

Section Demultiplexer.
Variable file_read_groups : gmap string string.

Abbreviation dstep := (demux_step file_read_groups).
Abbreviation label := (label file_read_groups).
Abbreviation bucket_of := (bucket_of file_read_groups).
Abbreviation demux_inv := (demux_inv file_read_groups).

Lemma demux_inv_init : demux_inv [] (mkDemux ∅ [] []).
Proof.
  split; [done|]. split; [|done]. intros l i. simpl.
  rewrite lookup_empty, lookup_nil. done.
Qed.

Lemma bucket_of_snoc scanned a l :
  bucket_of (scanned ++ [a]) l
  = if decide (label a = l) then bucket_of scanned l ++ [a]
    else bucket_of scanned l.
Proof.
  unfold bucket_of. rewrite filter_app. case_decide.
  - by rewrite filter_cons_True.
  - rewrite filter_cons_False by done. by rewrite app_nil_r.
Qed.

Lemma demux_inv_step scanned st a :
  demux_inv scanned st -> demux_inv (scanned ++ [a]) (dstep st a).
Proof.
  intros (Hn & Hi & Hs & Hb).
  assert (Hnd : NoDup (rg_names st)) by (rewrite Hn; apply NoDup_first_seen).
  unfold demux_step.
  change (label_of file_read_groups (Filename a)) with (label a).
  destruct (rg_indices st !! label a) as [i|] eqn:E.
  - (* a label already seen *)
    assert (Hin : label a ∈ label <$> scanned).
    { apply elem_of_first_seen. rewrite <- Hn.
      apply list_elem_of_lookup. exists i. by apply Hi. }
    split; [|split; [|split]]; cbn [rg_names rg_indices alignments_by_rg];
      try done.
    + rewrite fmap_app. change (label <$> [a]) with [label a].
      by rewrite first_seen_snoc, decide_True.
    + rewrite Hb. unfold bucket_push. apply list_eq. intros j.
      rewrite !list_lookup_fmap.
      destruct (decide (i = j)) as [<-|Hij].
      * rewrite list_lookup_alter_eq, list_lookup_fmap.
        apply Hi in E. rewrite E. simpl.
        by rewrite bucket_of_snoc, decide_True.
      * rewrite list_lookup_alter_ne by done. rewrite list_lookup_fmap.
        destruct (rg_names st !! j) as [l|] eqn:Ej; simpl; [|done].
        rewrite bucket_of_snoc, decide_False; [done|].
        intros <-. apply Hi in E. apply Hij.
        by eapply NoDup_lookup.
  - (* a new label *)
    assert (Hnin : label a ∉ label <$> scanned).
    { rewrite <- elem_of_first_seen, <- Hn. intros Hin.
      apply list_elem_of_lookup in Hin as [i Hin].
      apply Hi in Hin. congruence. }
    split; [|split; [|split]]; cbn [rg_names rg_indices alignments_by_rg].
    + rewrite fmap_app. change (label <$> [a]) with [label a].
      by rewrite first_seen_snoc, decide_False, Hn.
    + intros l i. rewrite lookup_insert. case_decide as Hl.
      * subst l. rewrite Hs. split.
        -- intros [= <-]. by rewrite lookup_app_r, Nat.sub_diag.
        -- intros Hlk. f_equal.
           destruct (decide (i < length (rg_names st))) as [Hlt|Hge].
           ++ rewrite lookup_app_l in Hlk by done.
              apply Hi in Hlk. congruence.
           ++ apply lookup_lt_Some in Hlk. rewrite length_app in Hlk.
              simpl in Hlk. lia.
      * rewrite Hi. split.
        -- intros Hlk. rewrite lookup_app_l; [done|].
           by eapply lookup_lt_Some.
        -- intros Hlk.
           destruct (decide (i < length (rg_names st))) as [Hlt|Hge].
           ++ by rewrite lookup_app_l in Hlk.
           ++ rewrite lookup_app_r in Hlk by lia.
              destruct (i - length (rg_names st)) as [|k]; simpl in Hlk;
                [congruence|]. by rewrite lookup_nil in Hlk.
    + rewrite map_size_insert_None by done. rewrite length_app. simpl. lia.
    + rewrite Hs. unfold bucket_push.
      assert (Hlen : length (alignments_by_rg st) = length (rg_names st))
        by (by rewrite Hb, length_fmap).
      rewrite <- Hlen, alter_app_r_alt, Nat.sub_diag by done.
      rewrite fmap_app. simpl. f_equal.
      * rewrite Hb. apply list_fmap_ext. intros j l Hj.
        rewrite bucket_of_snoc, decide_False; [done|].
        intros <-. apply Hnin. rewrite <- elem_of_first_seen, <- Hn.
        by eapply list_elem_of_lookup_2.
      * rewrite bucket_of_snoc, decide_True by done. f_equal.
        unfold bucket_of. destruct (filter _ scanned) as [|b ?] eqn:Ef; [done|].
        exfalso. apply Hnin.
        assert (Hbin : b ∈ filter (λ a0, label a0 = label a) scanned)
          by (rewrite Ef; left).
        apply list_elem_of_filter in Hbin as [Hl Hbin].
        rewrite <- Hl.
        by apply (list_elem_of_fmap_2
                    (fun a => label_of file_read_groups (Filename a))).
Qed.

Lemma demux_inv_loop rest : forall scanned st,
  demux_inv scanned st ->
  demux_inv (scanned ++ rest) (fold_left dstep rest st).
Proof.
  induction rest as [|a rest IH]; intros scanned st Hinv; simpl.
  - by rewrite app_nil_r.
  - replace (scanned ++ a :: rest) with ((scanned ++ [a]) ++ rest)
      by (by rewrite <- app_assoc).
    apply IH. by apply demux_inv_step.
Qed.

Lemma concat_bucket_push (L : list (list BamAlignment)) i x :
  (i < length L)%nat ->
  concat (bucket_push i x L) ≡ₚ concat L ++ [x].
Proof.
  unfold bucket_push. revert i.
  induction L as [|b L IH]; intros [|i] Hi; simpl in Hi; try lia.
  - simpl. rewrite <- !app_assoc.
    apply Permutation_app_head, Permutation_app_comm.
  - change (concat (b :: alter (fun b => b ++ [x]) i L) ≡ₚ concat (b :: L) ++ [x]).
    rewrite !concat_cons, IH by lia. by rewrite app_assoc.
Qed.

Lemma demux_step_concat scanned st a :
  demux_inv scanned st ->
  concat (alignments_by_rg (dstep st a))
  ≡ₚ concat (alignments_by_rg st) ++ [a].
Proof.
  intros (Hn & Hi & Hs & Hb).
  assert (Hlen : length (alignments_by_rg st) = length (rg_names st))
    by (by rewrite Hb, length_fmap).
  unfold demux_step.
  change (label_of file_read_groups (Filename a)) with (label a).
  destruct (rg_indices st !! label a) as [i|] eqn:E;
    cbn [alignments_by_rg].
  - apply concat_bucket_push. rewrite Hlen.
    apply Hi in E. by eapply lookup_lt_Some.
  - rewrite concat_bucket_push.
    + by rewrite concat_app, <- app_assoc.
    + rewrite length_app. simpl. lia.
Qed.

Lemma demux_concat_loop rest : forall scanned st,
  demux_inv scanned st -> concat (alignments_by_rg st) ≡ₚ scanned ->
  concat (alignments_by_rg (fold_left dstep rest st)) ≡ₚ scanned ++ rest.
Proof.
  induction rest as [|a rest IH]; intros scanned st Hinv Hc; simpl.
  - by rewrite app_nil_r.
  - replace (scanned ++ a :: rest) with ((scanned ++ [a]) ++ rest)
      by (by rewrite <- app_assoc).
    apply IH; [by apply demux_inv_step|].
    by rewrite (demux_step_concat _ _ _ Hinv), Hc.
Qed.

(** C7.  Called with empty output vectors, as [process_regions] does, the
    demultiplexer returns the labels in the order of their first
    occurrence in the surviving set; bucket [i] holds, in scan order, the
    records whose label is label [i]; a record of the set lies in the
    bucket at the position of its label and in no other; and the buckets
    together hold exactly the records of the set. *)
Theorem demultiplexer_first_seen_order (survivors : list BamAlignment) :
  let d := demultiplex file_read_groups survivors [] [] in
  rg_names d = first_seen (label <$> survivors)
  ∧ alignments_by_rg d = bucket_of survivors <$> rg_names d
  ∧ (forall a, a ∈ survivors ->
       exists i, rg_names d !! i = Some (label a)
                 ∧ forall j b, alignments_by_rg d !! j = Some b ->
                               (a ∈ b <-> j = i))
  ∧ concat (alignments_by_rg d) ≡ₚ survivors.
Proof.
  intros d.
  pose proof (demux_inv_loop survivors [] _ demux_inv_init)
    as (Hn & Hi & Hs & Hb).
  pose proof (demux_concat_loop survivors [] _ demux_inv_init
                (reflexivity _)) as Hc.
  simpl in Hn, Hb, Hc. subst d. unfold demultiplex.
  set (d := fold_left dstep survivors _) in *.
  split; [done|]. split; [done|]. split; [|done].
  intros a Ha.
  assert (Hin : label a ∈ rg_names d).
  { rewrite Hn, elem_of_first_seen.
    by apply (list_elem_of_fmap_2
                (fun a => label_of file_read_groups (Filename a))). }
  apply list_elem_of_lookup in Hin as [i Hin].
  exists i. split; [done|]. intros j b. rewrite Hb, list_lookup_fmap.
  destruct (rg_names d !! j) as [l|] eqn:Ej; simpl; [|done].
  intros [= <-]. unfold bucket_of. rewrite list_elem_of_filter. split.
  - intros [Hl _]. subst l.
    eapply NoDup_lookup; [|exact Ej|exact Hin].
    rewrite Hn. apply NoDup_first_seen.
  - intros ->. split; [congruence|done].
Qed.
End Demultiplexer.

Local Open Scope Z_scope.

(** ** Worked instances *)

Lemma survivors_pass_every_predicate_witness :
  flank_defined sample_config str_region
  ∧ Forall abs_defined [read_wide; read_narrow; read_inside; read_edge]
  ∧ region_alignments
      (filter_reads sample_filters sample_config "" str_region
         [read_wide; read_narrow; read_inside; read_edge])
    = filter (passes_all sample_filters sample_config "" str_region)
        [read_wide; read_narrow; read_inside; read_edge].
Proof.
  assert (Hf : flank_defined sample_config str_region)
    by (unfold flank_defined, in_int32, INT_MIN, INT_MAX; simpl; lia).
  assert (Ha : Forall abs_defined [read_wide; read_narrow; read_inside; read_edge])
    by (repeat constructor; unfold abs_defined, in_int32, INT_MIN, INT_MAX;
        simpl; lia).
  split; [exact Hf|]. split; [exact Ha|].
  exact (proj1 (survivors_pass_every_predicate
                  sample_filters sample_config "" str_region _ Hf Ha)).
Defined.

Lemma attribution_is_first_failure_witness :
  first_failure indel_filters sample_config "" str_region read_inside
  = Some NotSpanning
  ∧ not_spanning
      (counts (filter_step indel_filters sample_config "" str_region
                 init_state read_inside))
    = not_spanning (counts init_state) + 1
  ∧ bp_before_indel
      (counts (filter_step indel_filters sample_config "" str_region
                 init_state read_inside))
    = bp_before_indel (counts init_state).
Proof.
  destruct (attribution_is_first_failure indel_filters sample_config ""
              str_region init_state read_inside) as [_ H].
  - unfold flank_defined, in_int32, INT_MIN, INT_MAX; simpl; lia.
  - unfold abs_defined, in_int32, INT_MIN, INT_MAX; simpl; lia.
  - apply H.
    + reflexivity.
    + simpl. lia.
    + simpl. lia.
    + simpl. intros Hi. destruct Hi as [[Hi|Hi] _]; lia.
    + unfold INT_MAX. simpl. lia.
Defined.

Lemma scenario_insufficient_flank_witness :
  holds sample_filters sample_config "" str_region NotSpanning read_narrow
  ∧ first_failure sample_filters sample_config "" str_region read_narrow
    = Some InsufficientFlank
  ∧ flank_len
      (counts (filter_step sample_filters sample_config "" str_region
                 init_state read_narrow))
    = flank_len (counts init_state) + 1
  ∧ not_spanning
      (counts (filter_step sample_filters sample_config "" str_region
                 init_state read_narrow))
    = not_spanning (counts init_state)
  ∧ region_alignments
      (filter_step sample_filters sample_config "" str_region init_state
         read_narrow)
    = region_alignments init_state.
Proof.
  destruct (scenario_insufficient_flank sample_filters sample_config ""
              str_region init_state read_narrow)
    as (Hspan & _ & _ & Hff & Hup & Hrest & Hkeep);
    [reflexivity | reflexivity | reflexivity | reflexivity | reflexivity
    | reflexivity | simpl; lia | simpl; lia | done
    | unfold abs_defined, in_int32, INT_MIN, INT_MAX; simpl; lia
    | unfold INT_MAX; simpl; lia |].
  split; [exact Hspan|]. split; [exact Hff|]. split; [exact Hup|].
  split; [|exact Hkeep]. by apply (Hrest NotSpanning).
Defined.

Lemma zero_flank_disables_check_witness :
  region_alignments
    (filter_reads sample_filters zero_flank_config "" str_region
       [read_wide; read_narrow; read_inside; read_edge])
  = region_alignments
      (filter_reads_noflank sample_filters zero_flank_config "" str_region
         [read_wide; read_narrow; read_inside; read_edge]).
Proof.
  apply (zero_flank_disables_check sample_filters zero_flank_config ""
           str_region).
  - reflexivity.
  - unfold in_int32, INT_MIN, INT_MAX; simpl; lia.
  - unfold in_int32, INT_MIN, INT_MAX; simpl; lia.
Defined.

Lemma every_read_counted_once_witness :
  read_count
    (counts (filter_reads sample_filters sample_config "" str_region
               [read_wide; read_narrow; read_inside; read_edge]))
  = Z.of_nat (length [read_wide; read_narrow; read_inside; read_edge])
  ∧ read_count
      (counts (filter_reads sample_filters sample_config "" str_region
                 [read_wide; read_narrow; read_inside; read_edge]))
    = failures
        (counts (filter_reads sample_filters sample_config "" str_region
                   [read_wide; read_narrow; read_inside; read_edge]))
      + Z.of_nat
          (length
             (region_alignments
                (filter_reads sample_filters sample_config "" str_region
                   [read_wide; read_narrow; read_inside; read_edge]))).
Proof.
  apply (every_read_counted_once sample_filters sample_config "" str_region).
  unfold INT_MAX; simpl; lia.
Defined.

Lemma annotation_idempotent_witness :
  exists read2,
    tag_read all_tags_ok lib_groups str_region read_grouped_tagged
    = (read2, Ok tt)
    ∧ read2 = read_grouped_tagged
    ∧ GetTag "RG" read2 = GetTag "RG" read_grouped_tagged
    ∧ GetTag "XS" read2 = GetTag "XS" read_grouped_tagged
    ∧ GetTag "XE" read2 = GetTag "XE" read_grouped_tagged
    ∧ GetTag "XS" read_grouped_tagged = Some (TagInt (start str_region))
    ∧ GetTag "XE" read_grouped_tagged = Some (TagInt (stop str_region)).
Proof.
  apply (annotation_idempotent all_tags_ok lib_groups str_region read_grouped).
  vm_compute. reflexivity.
Defined.

Lemma demultiplexer_first_seen_order_witness :
  rg_names (demultiplex lib_groups [read_inside; read_wide; read_edge] [] [])
  = ["lib2"; "lib1"]
  ∧ alignments_by_rg
      (demultiplex lib_groups [read_inside; read_wide; read_edge] [] [])
    = [[read_inside; read_edge]; [read_wide]].
Proof.
  destruct (demultiplexer_first_seen_order lib_groups
              [read_inside; read_wide; read_edge]) as (Hn & Hb & _ & _).
  split.
  - rewrite Hn. vm_compute. reflexivity.
  - rewrite Hb, Hn. vm_compute. reflexivity.
Defined.

(** C4 (the source departs from the specification here).  [read_grouped] already has
    an RG tag, so the add of the provenance tag fails; the result is not
    looked at, the record is annotated with XS and XE and written, and
    the run goes on with the old RG value in place. *)
Theorem RG_tag_failure_is_ignored :
  AddTag all_tags_ok "RG" "Z" (TagString "lobSTR;lib1;lib1") read_grouped
  = (false, read_grouped)
  ∧ annotate_read all_tags_ok lib_groups str_region (list BamAlignment)
      save_always read_grouped []
    = ([read_grouped_tagged], Ok read_grouped_tagged)
  ∧ GetTag "RG" read_grouped_tagged = Some (TagString "grp1").
Proof. vm_compute. repeat split. Qed.

(** ** Further checks on the scenarios of the specification *)

(** [operator[]] on [file_read_groups] stores the empty label under an
    unknown file name; no label read afterwards differs. *)
Lemma subscript_keeps_labels (file_read_groups : gmap string string)
      (file file' : string) :
  label_of (subscript file_read_groups file) file'
  = label_of file_read_groups file'.
Proof.
  unfold label_of, subscript.
  destruct (file_read_groups !! file) eqn:E; [done|].
  destruct (decide (file = file')) as [<-|Hne].
  - by rewrite lookup_insert_eq, E.
  - by rewrite lookup_insert_ne.
Qed.

Example add_region_sorts :
  add_region (mkRegion "chr1" "" 50 180 2)
             (RegionGroup_new (mkRegion "chr1" "" 100 200 3))
  = ({| regions_ := [mkRegion "chr1" "" 50 180 2; mkRegion "chr1" "" 100 200 3];
        chrom_ := "chr1"; start_ := 50; stop_ := 200 |}, Ok tt).
Proof. reflexivity. Qed.

(** Scenario A: a mate on another reference. *)
Example scenario_different_chromosome :
  classify sample_filters sample_config "" str_region
    (mkAlignment 0 1 90 210 250 "a.bam" []) = Some DiffChromMate.
Proof. reflexivity. Qed.

(** Scenario B: insert size 0. *)
Example scenario_unmapped_mate :
  classify sample_filters sample_config "" str_region
    (mkAlignment 0 0 90 210 0 "a.bam" []) = Some UnmappedMate.
Proof. reflexivity. Qed.

(** Scenario D: a wide alignment with the optional filters off. *)
Example scenario_included :
  region_alignments
    (filter_reads sample_filters (mkProcessor INT_MAX 0 0 0 0 false) ""
       str_region [read_wide])
  = [read_wide].
Proof. reflexivity. Qed.

(** The whole function on a small stream, with an open writer. *)
Example read_and_filter_reads_run :
  match read_and_filter_reads all_tags_ok lib_groups str_region
          (list BamAlignment) (fun _ => true) save_always
          sample_filters sample_config ""
          [read_inside; read_wide; read_narrow; read_grouped] [] [] [] with
  | (written, Ok (c, d)) =>
      read_count c = 4 ∧ not_spanning c = 1 ∧ flank_len c = 1
      ∧ rg_names d = ["lib1"] ∧ length written = 2%nat
  | _ => False
  end.
Proof. vm_compute. repeat split. Qed.

(** * Further properties *)

(** *** More on [Region::operator<] *)

Lemma Region_cmp_refl a : Region_cmp a a = Eq.
Proof.
  unfold Region_cmp. by rewrite string_compare_refl, !Z.compare_refl.
Qed.

Lemma Region_cmp_Eq a b :
  Region_cmp a b = Eq <->
  chrom a = chrom b ∧ start a = start b ∧ stop a = stop b.
Proof.
  unfold Region_cmp. split.
  - destruct (String.compare (chrom a) (chrom b)) eqn:Hc; try done.
    apply String.compare_eq_iff in Hc.
    destruct (Z.compare_spec (start a) (start b)); try done.
    rewrite Z.compare_eq_iff. done.
  - intros (-> & -> & ->).
    by rewrite string_compare_refl, !Z.compare_refl.
Qed.

(** X1.  [operator<] is a strict order on regions: it is transitive, and a
    region that is less than another is not greater than it, nor less than
    itself. *)
Theorem Region_lt_strict_order (a b c : Region) :
  Region_ltb a b = true -> Region_ltb b c = true ->
  Region_ltb a c = true ∧ Region_ltb b a = false ∧ Region_ltb a a = false.
Proof.
  intros Hab Hbc. apply Region_ltb_cmp in Hab, Hbc. split; [|split].
  - apply (proj2 (Region_ltb_cmp a c)). by eapply Region_cmp_lt_trans.
  - apply not_true_iff_false. rewrite (Region_ltb_cmp b a).
    rewrite Region_cmp_antisym, Hab. done.
  - apply not_true_iff_false. rewrite (Region_ltb_cmp a a), Region_cmp_refl.
    done.
Qed.

(** X2.  Two regions are left unordered by [operator<] exactly when they have
    the same chromosome, start and stop; the name and the period play no
    part in the comparison. *)
Theorem Region_ties_are_equal_coordinates (a b : Region) :
  (Region_ltb a b = false ∧ Region_ltb b a = false)
  <-> (chrom a = chrom b ∧ start a = start b ∧ stop a = stop b).
Proof.
  rewrite <- Region_cmp_Eq, <- !not_true_iff_false, !Region_ltb_cmp.
  rewrite (Region_cmp_antisym b a).
  destruct (Region_cmp a b); simpl; split; try done; intros [? ?]; done.
Qed.

(** *** More on [RegionGroup] *)

Lemma Region_le_same_chrom a b :
  chrom a = chrom b -> Region_le a b ->
  start a <= start b ∧ (start a = start b -> stop a <= stop b).
Proof.
  intros Hc. rewrite Region_le_cmp. unfold Region_cmp.
  rewrite Hc, string_compare_refl.
  destruct (Z.compare_spec (start a) (start b)); try lia.
  - destruct (Z.compare_spec (stop a) (stop b)); try lia. done.
  - done.
Qed.

Lemma is_minimum_unique m m' l : is_minimum m l -> is_minimum m' l -> m = m'.
Proof.
  intros [Hin Hall] [Hin' Hall']. rewrite Forall_forall in Hall, Hall'.
  specialize (Hall _ Hin'). specialize (Hall' _ Hin). lia.
Qed.

Lemma is_maximum_unique m m' l : is_maximum m l -> is_maximum m' l -> m = m'.
Proof.
  intros [Hin Hall] [Hin' Hall']. rewrite Forall_forall in Hall, Hall'.
  specialize (Hall _ Hin'). specialize (Hall' _ Hin). lia.
Qed.

(** What a run of insertions that did not abort leaves behind. *)
Lemma add_regions_ok rs : forall g g',
  group_inv g -> Forall (fun r => chrom r = chrom_ g) (regions_ g) ->
  add_regions rs g = (g', Ok tt) ->
  group_inv g' ∧ regions_ g' ≡ₚ regions_ g ++ rs ∧ chrom_ g' = chrom_ g
  ∧ Forall (fun r => chrom r = chrom_ g) (regions_ g').
Proof.
  induction rs as [|r rs IH]; intros g g' Hinv Hch Hrun.
  - injection Hrun as <-. by rewrite app_nil_r.
  - simpl in Hrun. unfold mbind, M_bind, m_bind in Hrun.
    destruct (decide (chrom r = chrom_ g)) as [Heq|Hne].
    + pose proof (add_region_same _ _ Heq) as Hadd. rewrite Hadd in Hrun.
      destruct (group_inv_add _ _ _ Hinv Hadd) as (Hinv1 & Hp1 & Hc1).
      apply IH in Hrun as (Hinv' & Hp' & Hc' & Hch'); [| done |].
      * rewrite Hc1 in *. split; [done|]. split; [|done].
        rewrite Hp', Hp1. by rewrite <- app_assoc.
      * rewrite Hc1, Hp1. apply Forall_app. split; [done|].
        by apply Forall_singleton.
    + rewrite (add_region_other _ _ Hne) in Hrun. discriminate.
Qed.

Lemma add_regions_from_new r0 rs g :
  add_regions rs (RegionGroup_new r0) = (g, Ok tt) ->
  chrom_ g = chrom r0
  ∧ Forall (fun r => chrom r = chrom r0) (regions_ g)
  ∧ regions_ g ≡ₚ r0 :: rs.
Proof.
  intros Hrun.
  apply add_regions_ok in Hrun as (_ & Hp & Hc & Hch); [done| |].
  - apply group_inv_new.
  - by apply Forall_singleton.
Qed.

(** X3.  A group built from [r0] by adding the regions [rs], none of which
    aborts, has [1 + length rs] regions, the chromosome of [r0], only
    members on that chromosome, and as members exactly [r0] and [rs], each
    as often as it was added. *)
Theorem add_regions_members (r0 : Region) (rs : list Region) (g : RegionGroup) :
  add_regions rs (RegionGroup_new r0) = (g, Ok tt) ->
  num_regions g = S (length rs)
  ∧ chrom_ g = chrom r0
  ∧ Forall (fun r => chrom r = chrom r0) (regions_ g)
  ∧ regions_ g ≡ₚ r0 :: rs.
Proof.
  intros Hrun.
  apply add_regions_ok in Hrun as (_ & Hp & Hc & Hch).
  - split; [|done]. unfold num_regions. by rewrite Hp.
  - apply group_inv_new.
  - by apply Forall_singleton.
Qed.

(** X4.  The interval from [start()] to [stop()] of a group covers every
    member; and when every region added satisfies the constructor's
    assertion [stop > start], so does the group. *)
Theorem group_span_covers_members (r0 : Region) (rs : list Region)
        (g : RegionGroup) :
  add_regions rs (RegionGroup_new r0) = (g, Ok tt) ->
  (forall r, r ∈ regions_ g -> start_ g <= start r ∧ stop r <= stop_ g)
  ∧ (Forall (fun r => start r < stop r) (r0 :: rs) -> start_ g < stop_ g).
Proof.
  intros Hrun.
  apply add_regions_ok in Hrun as (((Hmin & Hmin') & (Hmax & Hmax') & _) & Hp & _);
    [|apply group_inv_new|by apply Forall_singleton].
  rewrite Forall_fmap, Forall_forall in Hmin', Hmax'. split.
  - intros r Hr. split; [by apply Hmin'|by apply Hmax'].
  - intros Hvalid. rewrite <- Hp in Hvalid. rewrite Forall_forall in Hvalid.
    apply list_elem_of_fmap in Hmin as (r & Hr & Hin).
    specialize (Hvalid _ Hin). specialize (Hmax' _ Hin). simpl in *. lia.
Qed.

(** X5.  The first member of a group, in the sorted order [add_region]
    leaves, starts where the group starts. *)
Theorem group_front_has_group_start (r0 : Region) (rs : list Region)
        (g : RegionGroup) (r : Region) :
  add_regions rs (RegionGroup_new r0) = (g, Ok tt) ->
  head (regions_ g) = Some r ->
  start r = start_ g.
Proof.
  intros Hrun Hhead.
  apply add_regions_ok in Hrun as ((Hmin & _ & Hs) & _ & Hc & Hch);
    [|apply group_inv_new|by apply Forall_singleton].
  destruct (regions_ g) as [|r' l] eqn:E; [done|]. injection Hhead as ->.
  apply (is_minimum_unique _ _ (start <$> r :: l)); [|done].
  apply StronglySorted_inv in Hs as [_ Hr].
  apply Forall_cons in Hch as [Hcr Hcl].
  split; [left|]. rewrite fmap_cons. constructor; [lia|].
  rewrite Forall_fmap. rewrite Forall_forall in Hr, Hcl. apply Forall_forall.
  intros x Hx. simpl.
  apply (Region_le_same_chrom r x); [|by apply Hr].
  rewrite Hcr. symmetry. by apply Hcl.
Qed.

(** X6.  Adding a sequence of regions whose first region on another
    chromosome is [bad] ends in the fatal error at [bad], with the group as
    the regions before [bad] left it: [bad] and what follows are not
    added. *)
Theorem add_regions_stops_at_first_foreign (r0 : Region)
        (pre post : list Region) (bad : Region) :
  Forall (fun r => chrom r = chrom r0) pre ->
  chrom bad ≠ chrom r0 ->
  exists g,
    add_regions pre (RegionGroup_new r0) = (g, Ok tt)
    ∧ add_regions (pre ++ bad :: post) (RegionGroup_new r0)
      = (g, Died "RegionGroup can only consist of regions on a single chromosome").
Proof.
  intros Hpre Hbad.
  destruct (add_regions_inv pre (RegionGroup_new r0)) as (g & Hrun & _ & _);
    [apply group_inv_new|done|].
  exists g. split; [done|].
  assert (Hc : chrom_ g = chrom r0).
  { apply add_regions_from_new in Hrun. tauto. }
  clear Hpre. revert Hrun. generalize (RegionGroup_new r0).
  induction pre as [|p pre IH]; intros g0 Hrun.
  - injection Hrun as ->. simpl. unfold mbind, M_bind, m_bind.
    rewrite add_region_other; [done|]. by rewrite Hc.
  - simpl in *. unfold mbind, M_bind, m_bind in *.
    destruct (add_region p g0) as [g1 [[]|msg]]; [|done]. by apply IH.
Qed.

(** X7.  The order in which regions are added does not matter: adding a
    rearrangement of [rs] succeeds as well and gives the same chromosome,
    start and stop and the same members. *)
Theorem add_regions_order_irrelevant (r0 : Region) (rs rs' : list Region)
        (g : RegionGroup) :
  rs ≡ₚ rs' ->
  add_regions rs (RegionGroup_new r0) = (g, Ok tt) ->
  exists g',
    add_regions rs' (RegionGroup_new r0) = (g', Ok tt)
    ∧ chrom_ g' = chrom_ g ∧ start_ g' = start_ g ∧ stop_ g' = stop_ g
    ∧ regions_ g' ≡ₚ regions_ g.
Proof.
  intros Hperm Hrun.
  pose proof (add_regions_from_new _ _ _ Hrun) as (Hc & Hch & Hp).
  apply add_regions_ok in Hrun as ((Hmin & Hmax & _) & _ & _ & _);
    [|apply group_inv_new|by apply Forall_singleton].
  destruct (add_regions_inv rs' (RegionGroup_new r0))
    as (g' & Hrun' & (Hmin' & Hmax' & _) & Hp'); [apply group_inv_new| |].
  { rewrite <- Hperm. rewrite Hp in Hch. by apply Forall_cons in Hch as [_ ?]. }
  exists g'. split; [done|].
  assert (Hpp : regions_ g' ≡ₚ regions_ g)
    by (by rewrite Hp', Hp; simpl; rewrite Hperm).
  pose proof (add_regions_from_new _ _ _ Hrun') as (Hc' & _).
  split; [congruence|]. split; [|split; [|done]].
  - eapply is_minimum_unique; [exact Hmin'|].
    eapply is_minimum_perm; [|exact Hmin]. by rewrite Hpp.
  - eapply is_maximum_unique; [exact Hmax'|].
    eapply is_maximum_perm; [|exact Hmax]. by rewrite Hpp.
Qed.

(** ** More on the filter cascade *)

Lemma filter_sublist_of_filter {A} (Q Q' : A -> Prop)
      `{!forall x, Decision (Q x), !forall x, Decision (Q' x)} (l : list A) :
  (forall x, Q' x -> Q x) -> sublist (filter Q' l) (filter Q l).
Proof.
  intros HQ. induction l as [|x l IH]; [done|].
  rewrite !filter_cons. destruct (decide (Q' x)) as [H'|H'].
  - rewrite decide_True by auto. by constructor.
  - destruct (decide (Q x)); [by constructor|done].
Qed.

Section CascadeMore.
Variable AF : AlignmentFilters.
Variable P : BamProcessor.
Variable chrom_seq : string.
Variable region : Region.

Abbreviation pred := (holds AF P chrom_seq region).
Abbreviation arm := (classify AF P chrom_seq region).
Abbreviation first_fail := (first_failure AF P chrom_seq region).
Abbreviation step := (filter_step AF P chrom_seq region).
Abbreviation run := (filter_reads AF P chrom_seq region).
Abbreviation passes := (passes_all AF P chrom_seq region).

Lemma survivors_filter_passes (reader : list BamAlignment) :
  flank_defined P region -> Forall abs_defined reader ->
  region_alignments (run reader) = filter passes reader.
Proof.
  intros Hf Ha. unfold filter_reads. rewrite survivors_from. simpl.
  induction Ha as [|a l Ha Hl IH]; [done|].
  rewrite !filter_cons, IH, (classify_first_failure _ _ _ _ _ Hf Ha).
  destruct (decide (passes a)) as [Hp|Hp].
  - rewrite decide_True; [done|]. by apply first_failure_None.
  - rewrite decide_False; [done|]. by rewrite first_failure_None.
Qed.

(** X8.  Whether a record survives the filters depends on that record alone:
    the survivors of a stream are those of its first part followed by those
    of the rest, and they are a subsequence of the stream, in its order. *)
Theorem survivors_are_decided_per_record (l1 l2 : list BamAlignment) :
  region_alignments (run (l1 ++ l2))
  = region_alignments (run l1) ++ region_alignments (run l2)
  ∧ sublist (region_alignments (run l1)) l1.
Proof.
  unfold filter_reads. rewrite !survivors_from. simpl. split.
  - apply filter_app.
  - apply sublist_filter.
Qed.

(** The tally invariant: after the records [done], every failure counter
    is the number of records of [done] that took its arm. *)
Lemma tally_loop rest : forall done st,
  Z.of_nat (length (done ++ rest)) <= INT_MAX ->
  (forall r, counter_of r (counts st)
             = Z.of_nat (length (filter (fun a => arm a = Some r) done))) ->
  forall r, counter_of r (counts (fold_left step rest st))
            = Z.of_nat (length (filter (fun a => arm a = Some r)
                                  (done ++ rest))).
Proof.
  induction rest as [|a rest IH]; intros done st Hlen Hst r.
  - simpl. by rewrite app_nil_r.
  - replace (done ++ a :: rest) with ((done ++ [a]) ++ rest) in *
      by (by rewrite <- app_assoc).
    simpl fold_left. apply IH; [done|]. clear r. intros r.
    rewrite filter_step_classify, filter_app, length_app.
    assert (Hsmall : 0 <= counter_of r (counts st) < INT_MAX).
    { rewrite Hst. pose proof (length_filter (fun a => arm a = Some r) done).
      rewrite !length_app in Hlen. simpl in Hlen. lia. }
    destruct (arm a) as [r'|] eqn:E; simpl.
    + rewrite counter_of_bump, counter_of_bump_read_count.
      destruct (decide (r = r')) as [->|Hne].
      * rewrite filter_cons_True by done. rewrite int_incr_small by done.
        rewrite Hst. simpl. lia.
      * rewrite filter_cons_False by congruence. rewrite Hst. simpl. lia.
    + rewrite counter_of_bump_read_count, filter_cons_False by congruence.
      rewrite Hst. simpl. lia.
Qed.

(** X9.  Where the source's arithmetic is defined and the number of records
    fits an [int], each of the nine counters ends as the number of records
    whose first failed predicate is the counter's. *)
Theorem counter_is_tally_of_first_failures (reader : list BamAlignment)
        (r : Reason) :
  Z.of_nat (length reader) <= INT_MAX ->
  flank_defined P region -> Forall abs_defined reader ->
  counter_of r (counts (run reader))
  = Z.of_nat (length (filter (fun a => first_fail a = Some r) reader)).
Proof.
  intros Hlen Hf Ha.
  pose proof (tally_loop reader [] init_state Hlen) as Ht. simpl in Ht.
  unfold filter_reads. rewrite Ht by (by intros []).
  f_equal. f_equal. clear Ht Hlen.
  induction Ha as [|a l Ha Hl IH]; [done|].
  rewrite !filter_cons, IH, (classify_first_failure _ _ _ _ _ Hf Ha). done.
Qed.

(** X10.  A negative minimum flank disables the flank check just as zero does:
    with [MIN_FLANK <= 0] the loop gives the survivors and counts of the
    loop without lines 48-52. *)
Theorem nonpositive_flank_disables_check (reader : list BamAlignment) :
  MIN_FLANK P <= 0 -> flank_defined P region ->
  run reader = filter_reads_noflank AF P chrom_seq region reader.
Proof.
  intros Hm [H1 H2]. unfold filter_reads, filter_reads_noflank.
  generalize init_state. induction reader as [|a l IH]; intros st; [done|].
  simpl. rewrite IH. f_equal.
  unfold filter_step, filter_step_noflank, int_sub, int_add.
  rewrite (wrap32_id _ H1), (wrap32_id _ H2).
  destruct (negb _); [done|]. destruct (InsertSize a =? 0); [done|].
  destruct ((Position a >? start region) || (EndPosition a <? stop region))
    eqn:Hsp; [done|].
  destruct (int_abs _ >? _); [done|]. destruct (_ && HasTag _ _); [done|].
  replace ((Position a >? start region - MIN_FLANK P)
           || (EndPosition a <? stop region + MIN_FLANK P)) with false; [done|].
  symmetry. bool_to_Z Hsp. apply orb_false_iff. rewrite Z.gtb_ltb, !Z.ltb_ge.
  lia.
Qed.

(** X11.  With a maximum mate distance of zero or less no record survives: a
    record with insert size zero fails the unmapped-mate check, any other
    the insert-size check at the latest. *)
Theorem nonpositive_mate_distance_rejects_all (reader : list BamAlignment) :
  MAX_MATE_DIST P <= 0 -> Forall abs_defined reader ->
  region_alignments (run reader) = [].
Proof.
  intros Hm Ha. unfold filter_reads. rewrite survivors_from. simpl.
  induction Ha as [|a l Ha Hl IH]; [done|].
  rewrite filter_cons_False; [done|].
  unfold classify, int_abs. rewrite (wrap32_id _ Ha).
  destruct (negb _); [done|].
  destruct (InsertSize a =? 0) eqn:E0; [done|].
  destruct (_ || _); [done|].
  replace (Z.abs (InsertSize a) >? MAX_MATE_DIST P) with true; [done|].
  symmetry. bool_to_Z E0. rewrite Z.gtb_ltb, Z.ltb_lt. lia.
Qed.
End CascadeMore.

(** X12.  With the three user thresholds [MIN_BP_BEFORE_INDEL],
    [MAXIMAL_END_MATCH_WINDOW] and [MIN_READ_END_MATCH] not positive, the
    result depends neither on the [AlignmentFilters] functions nor on the
    reference sequence. *)
Theorem disabled_filters_are_never_consulted
        (AF AF' : AlignmentFilters) (P : BamProcessor)
        (chrom_seq chrom_seq' : string) (region : Region)
        (reader : list BamAlignment) :
  MIN_BP_BEFORE_INDEL P <= 0 -> MAXIMAL_END_MATCH_WINDOW P <= 0 ->
  MIN_READ_END_MATCH P <= 0 ->
  filter_reads AF P chrom_seq region reader
  = filter_reads AF' P chrom_seq' region reader.
Proof.
  intros H1 H2 H3. unfold filter_reads. generalize init_state.
  induction reader as [|a l IH]; intros st; [done|].
  simpl. rewrite IH. f_equal. unfold filter_step.
  replace (MIN_BP_BEFORE_INDEL P >? 0) with false
    by (symmetry; rewrite Z.gtb_ltb, Z.ltb_ge; lia).
  replace (MAXIMAL_END_MATCH_WINDOW P >? 0) with false
    by (symmetry; rewrite Z.gtb_ltb, Z.ltb_ge; lia).
  replace (MIN_READ_END_MATCH P >? 0) with false
    by (symmetry; rewrite Z.gtb_ltb, Z.ltb_ge; lia).
  done.
Qed.

(** X13.  Tightening the thresholds never lets a new record through: under a
    configuration at least as strict in every threshold the survivors are
    a subsequence of the survivors under the laxer one. *)
Theorem stricter_thresholds_keep_fewer
        (AF : AlignmentFilters) (P P' : BamProcessor) (chrom_seq : string)
        (region : Region) (reader : list BamAlignment) :
  at_least_as_strict P P' ->
  flank_defined P region -> flank_defined P' region ->
  Forall abs_defined reader ->
  sublist (region_alignments (filter_reads AF P' chrom_seq region reader))
          (region_alignments (filter_reads AF P chrom_seq region reader)).
Proof.
  intros (Hd & Hfl & Hmm & Hin & Hem & Hw) Hf Hf' Ha.
  rewrite !survivors_filter_passes by done.
  apply filter_sublist_of_filter. intros a.
  rewrite !passes_all_unfold. simpl.
  intros (H1 & H2 & H3 & H4 & H5 & H6 & H7 & H8 & H9).
  split; [done|]. split; [done|]. split; [done|]. split; [lia|].
  split; [intros Hr; by apply H5, Hmm|]. split; [lia|].
  split; [|split].
  - intros Hp. destruct H7 as [[?|?] [?|?]]; [lia|..]; split; auto; right; lia.
  - intros Hp. destruct Hw as [Hw|Hw]; [|lia]. rewrite Hw. apply H8. lia.
  - intros Hp. destruct H9; lia.
Qed.

(** ** More on the annotation *)

Lemma region_tags_apart_refl a : region_tags_apart a a.
Proof. by repeat split. Qed.

Lemma region_tags_apart_trans a b c :
  region_tags_apart a b -> region_tags_apart b c -> region_tags_apart a c.
Proof.
  intros [(?&?&?&?&?&?) Hab] [(?&?&?&?&?&?) Hbc].
  split; [repeat split; congruence|].
  intros t Hxs Hxe. by rewrite Hbc, Hab.
Qed.

Lemma RemoveTag_apart t a :
  t = "XS" ∨ t = "XE" -> region_tags_apart a (RemoveTag t a).
Proof.
  intros Ht. split; [by repeat split|]. intros t' Hxs Hxe. simpl.
  apply find_tag_remove_first_ne. destruct Ht; congruence.
Qed.

Section AnnotationMore.
Variable tag_ok : string -> string -> bool.
Variable file_read_groups : gmap string string.
Variable region : Region.

Abbreviation stamp := (tag_read tag_ok file_read_groups region).

Lemma AddTag_apart t ty v a :
  t = "XS" ∨ t = "XE" ->
  region_tags_apart a (snd (AddTag tag_ok t ty v a)).
Proof.
  intros Ht. unfold AddTag.
  destruct (tag_ok t ty); simpl; [|apply region_tags_apart_refl].
  destruct (HasTag t a); simpl; [apply region_tags_apart_refl|].
  split; [by repeat split|]. intros t' Hxs Hxe. simpl.
  rewrite find_tag_app. destruct (find_tag t' (TagData a)); [done|].
  simpl. rewrite decide_False; [done|]. destruct Ht; congruence.
Qed.

(** Whatever the outcome, the record the tag step leaves is the record
    after the RG add, but for XS and XE. *)
Lemma tag_read_shape read read' o :
  stamp read = (read', o) ->
  region_tags_apart
    (snd (AddTag tag_ok "RG" "Z"
            (TagString ("lobSTR;" +:+ label_of file_read_groups (Filename read)
                        +:+ ";" +:+ label_of file_read_groups (Filename read)))
            read))
    read'.
Proof.
  rewrite tag_read_unfold. cbv zeta.
  set (r1 := snd (AddTag tag_ok "RG" "Z" _ read)).
  rewrite guarded_remove_eq.
  pose proof (RemoveTag_apart "XS" r1 (or_introl eq_refl)) as H2.
  pose proof (AddTag_apart "XS" "I" (TagInt (start region))
                (RemoveTag "XS" r1) (or_introl eq_refl)) as H3.
  destruct (AddTag tag_ok "XS" "I" _ _) as [[] r3]; simpl in H3.
  - unfold EditTag. rewrite !guarded_remove_eq.
    pose proof (RemoveTag_apart "XE" r3 (or_intror eq_refl)) as H4.
    pose proof (RemoveTag_apart "XE" (RemoveTag "XE" r3) (or_intror eq_refl))
      as H4'.
    pose proof (AddTag_apart "XE" "I" (TagInt (stop region))
                  (RemoveTag "XE" (RemoveTag "XE" r3)) (or_intror eq_refl))
      as H5.
    assert (H15 : region_tags_apart r1
                    (snd (AddTag tag_ok "XE" "I" (TagInt (stop region))
                            (RemoveTag "XE" (RemoveTag "XE" r3))))).
    { repeat (eapply region_tags_apart_trans; [eassumption|]).
      apply region_tags_apart_refl. }
    destruct (AddTag tag_ok "XE" "I" _ _) as [[] r5]; by intros [= <- _].
  - intros [= <- _]. by eapply region_tags_apart_trans.
Qed.

(** X14.  The tag step changes nothing of a record but the tags RG, XS and XE:
    the alignment fields and the file name are kept, and so is the value
    found under any other tag; also when the step aborts. *)
Theorem tag_read_touches_only_its_tags (read read' : BamAlignment)
        (o : outcome unit) :
  stamp read = (read', o) ->
  same_core read read'
  ∧ forall t, t ≠ "RG" -> t ≠ "XS" -> t ≠ "XE" ->
              find_tag t (TagData read') = find_tag t (TagData read).
Proof.
  intros H. apply tag_read_shape in H as [Hc Ht].
  assert (Hrg : same_core read
                  (snd (AddTag tag_ok "RG" "Z"
                          (TagString ("lobSTR;"
                             +:+ label_of file_read_groups (Filename read)
                             +:+ ";"
                             +:+ label_of file_read_groups (Filename read)))
                          read))
                ∧ forall t, t ≠ "RG" ->
                    find_tag t (TagData (snd (AddTag tag_ok "RG" "Z"
                          (TagString ("lobSTR;"
                             +:+ label_of file_read_groups (Filename read)
                             +:+ ";"
                             +:+ label_of file_read_groups (Filename read)))
                          read)))
                    = find_tag t (TagData read)).
  { unfold AddTag. destruct (tag_ok "RG" "Z"); simpl; [|by repeat split].
    destruct (HasTag "RG" read); simpl; [by repeat split|].
    split; [by repeat split|]. intros t Hne. rewrite find_tag_app.
    destruct (find_tag t (TagData read)); [done|]. simpl.
    by rewrite decide_False. }
  destruct Hrg as [(?&?&?&?&?&?) Hrg], Hc as (?&?&?&?&?&?).
  split; [repeat split; congruence|].
  intros t Hn1 Hn2 Hn3. by rewrite Ht, Hrg.
Qed.

(** X15.  After the tag step a record that had an RG tag still has that value;
    one that had none has [lobSTR;<label>;<label>], with the label of its
    file twice, when the library accepts the tag, and none otherwise. *)
Theorem provenance_tag_value (read read' : BamAlignment) (o : outcome unit) :
  stamp read = (read', o) ->
  GetTag "RG" read'
  = match GetTag "RG" read with
    | Some v => Some v
    | None =>
        if tag_ok "RG" "Z"
        then Some (TagString
                     ("lobSTR;" +:+ label_of file_read_groups (Filename read)
                      +:+ ";" +:+ label_of file_read_groups (Filename read)))
        else None
    end.
Proof.
  intros H. apply tag_read_shape in H as [_ Ht].
  unfold GetTag. rewrite Ht by done.
  unfold AddTag, HasTag. destruct (tag_ok "RG" "Z"); simpl.
  - destruct (find_tag "RG" (TagData read)) eqn:E; simpl; [by rewrite E|].
    by rewrite find_tag_app, E.
  - by destruct (find_tag "RG" (TagData read)).
Qed.

Variable BamWriter : Type.
Variable SaveAlignment : BamAlignment -> BamWriter -> bool * BamWriter.

Abbreviation annotate1 :=
  (annotate_read tag_ok file_read_groups region BamWriter SaveAlignment).
Abbreviation annotate :=
  (annotate_reads tag_ok file_read_groups region BamWriter SaveAlignment).

Lemma annotate_read_Ok read w w' read' :
  annotate1 read w = (w', Ok read') <->
  stamp read = (read', Ok tt) ∧ SaveAlignment read' w = (true, w').
Proof.
  unfold annotate_read, mbind, M_bind, m_bind, m_call, when_,
    printErrorAndDie, mret, M_ret, m_ret.
  destruct (stamp read) as [r [[]|msg]]; [|split; [done|by intros [? _]]].
  destruct (SaveAlignment r w) as [[] w1] eqn:E; simpl.
  - split.
    + intros [= <- <-]. done.
    + intros [[= <-] Hs]. rewrite E in Hs. by injection Hs as <-.
  - split; [done|]. intros [[= <-] Hs]. rewrite E in Hs. done.
Qed.

Lemma annotate_read_Died read w w' msg :
  annotate1 read w = (w', Died msg) ->
  msg = "Failed to modify XS tag" ∨ msg = "Failed to modify XE tag"
  ∨ msg = "Failed to save alignment for STR-spanning read".
Proof.
  unfold annotate_read, mbind, M_bind, m_bind, m_call, when_,
    printErrorAndDie, mret, M_ret, m_ret.
  destruct (stamp read) as [r [[]|msg']] eqn:E.
  - destruct (SaveAlignment r w) as [[] w1]; simpl; [done|].
    intros [= _ <-]. auto.
  - intros [= _ <-]. apply tag_read_abort_messages in E. tauto.
Qed.

Lemma annotate_reads_Ok (reads reads' : list BamAlignment)
      (w w' : BamWriter) :
  annotate reads w = (w', Ok reads') ->
  Forall2 (fun r r' => stamp r = (r', Ok tt)) reads reads'
  ∧ w' = fold_left (fun w r' => snd (SaveAlignment r' w)) reads' w.
Proof.
  revert reads' w. induction reads as [|r reads IH]; intros reads' w.
  - intros [= <- <-]. by split.
  - simpl. unfold mbind, M_bind, m_bind.
    destruct (annotate1 r w) as [w1 [r'|msg]] eqn:E1; [|done].
    destruct (annotate reads w1) as [w2 [rest'|msg]] eqn:E2; [|done].
    intros [= <- <-]. apply annotate_read_Ok in E1 as [Ht Hs].
    destruct (IH _ _ E2) as [Hall Hw]. split; [by constructor|].
    simpl. by rewrite Hs.
Qed.

Lemma annotate_reads_Died reads w w' msg :
  annotate reads w = (w', Died msg) ->
  msg = "Failed to modify XS tag" ∨ msg = "Failed to modify XE tag"
  ∨ msg = "Failed to save alignment for STR-spanning read".
Proof.
  revert w. induction reads as [|r reads IH]; intros w; [done|].
  simpl. unfold mbind, M_bind, m_bind.
  destruct (annotate1 r w) as [w1 [r'|msg1]] eqn:E1.
  - destruct (annotate reads w1) as [w2 [rest'|msg2]] eqn:E2; [done|].
    intros [= <- <-]. by eapply IH.
  - intros [= <- <-]. by eapply annotate_read_Died.
Qed.

(** X16.  When the annotation loop aborts, it does so at the first record that
    fails, with one of the three messages of the source: the records before
    it were tagged and written, the ones after it were not touched. *)
Theorem annotate_reads_fails_fast (reads : list BamAlignment)
        (w w' : BamWriter) (msg : string) :
  annotate reads w = (w', Died msg) ->
  (msg = "Failed to modify XS tag" ∨ msg = "Failed to modify XE tag"
   ∨ msg = "Failed to save alignment for STR-spanning read")
  ∧ exists pre bad post pre' w1,
      reads = pre ++ bad :: post
      ∧ annotate pre w = (w1, Ok pre')
      ∧ annotate1 bad w1 = (w', Died msg).
Proof.
  revert w. induction reads as [|r reads IH]; intros w; [done|].
  simpl. unfold mbind, M_bind, m_bind.
  destruct (annotate1 r w) as [w1 [r'|msg1]] eqn:E1.
  - destruct (annotate reads w1) as [w2 [rest'|msg2]] eqn:E2; [done|].
    intros [= <- <-].
    destruct (IH _ E2) as (Hmsg & pre & bad & post & pre' & w3 & -> & Hp & Hb).
    split; [done|].
    exists (r :: pre), bad, post, (r' :: pre'), w3. split; [done|].
    split; [|done]. simpl. unfold mbind, M_bind, m_bind. by rewrite E1, Hp.
  - intros [= <- <-]. split; [by eapply annotate_read_Died|].
    by exists [], r, reads, [], w.
Qed.
End AnnotationMore.

Local Open Scope nat_scope.

(** ** More on the demultiplexer *)

Lemma length_first_seen l : length (first_seen l) <= length l.
Proof.
  induction l as [|x l IH]; simpl; [done|].
  pose proof (length_filter (fun y => y ≠ x) (first_seen l)). lia.
Qed.

Section DemuxMore.
Variable file_read_groups : gmap string string.

Abbreviation dstep := (demux_step file_read_groups).
Abbreviation label := (label file_read_groups).
Abbreviation bucket_of := (bucket_of file_read_groups).
Abbreviation demux_inv := (demux_inv file_read_groups).
Abbreviation demux_from := (demux_from file_read_groups).

Lemma bucket_of_nonempty scanned l :
  l ∈ label <$> scanned -> bucket_of scanned l ≠ [].
Proof.
  intros Hin Hnil. apply list_elem_of_fmap in Hin as (a & -> & Ha).
  assert (a ∈ bucket_of scanned (label a)) as Hb
      by (by apply list_elem_of_filter).
  rewrite Hnil in Hb. by apply elem_of_nil in Hb.
Qed.

(** X17.  Started on empty vectors, the demultiplexer makes no empty bucket:
    there are as many buckets as labels, at most as many as records, and
    each holds a record. *)
Theorem buckets_are_nonempty (survivors : list BamAlignment) :
  let d := demultiplex file_read_groups survivors [] [] in
  Forall (fun b => b ≠ []) (alignments_by_rg d)
  ∧ length (alignments_by_rg d) = length (rg_names d)
  ∧ length (rg_names d) <= length survivors.
Proof.
  intros d.
  pose proof (demux_inv_loop file_read_groups survivors [] _
                (demux_inv_init file_read_groups)) as (Hn & _ & _ & Hb).
  simpl in Hn, Hb. subst d. unfold demultiplex.
  set (d := fold_left dstep survivors _) in *.
  split; [|split].
  - rewrite Hb, Forall_fmap, Forall_forall. intros l Hl. simpl.
    apply bucket_of_nonempty. rewrite <- elem_of_first_seen. by rewrite <- Hn.
  - by rewrite Hb, length_fmap.
  - rewrite Hn. etransitivity; [apply length_first_seen|].
    by rewrite length_fmap.
Qed.

Lemma demux_from_init names0 buckets0 :
  demux_from names0 buckets0 [] (mkDemux ∅ names0 buckets0).
Proof.
  unfold demux_from. simpl. split; [by rewrite app_nil_r|].
  split; [|split; [done|]].
  - intros l i. by rewrite lookup_empty, lookup_nil.
  - rewrite app_nil_r. apply list_eq. intros j.
    rewrite list_lookup_imap. destruct (buckets0 !! j); simpl; [|done].
    by rewrite app_nil_r.
Qed.

Lemma demux_from_step names0 buckets0 scanned st a :
  demux_from names0 buckets0 scanned st ->
  demux_from names0 buckets0 (scanned ++ [a]) (dstep st a).
Proof.
  unfold demux_from. cbv zeta. intros (Hn & Hi & Hs & Hb).
  set (fs := first_seen (label <$> scanned)) in *.
  assert (Hnd : NoDup fs) by apply NoDup_first_seen.
  rewrite fmap_app. change (label <$> [a]) with [label a].
  rewrite first_seen_snoc. fold fs.
  unfold demux_step.
  change (label_of file_read_groups (Filename a)) with (label a).
  destruct (rg_indices st !! label a) as [i|] eqn:E.
  - assert (Hin : label a ∈ label <$> scanned).
    { apply elem_of_first_seen. apply list_elem_of_lookup. exists i.
      by apply Hi. }
    rewrite decide_True by done. cbn [rg_names rg_indices alignments_by_rg].
    split; [done|]. split; [done|]. split; [done|].
    apply Hi in E. rewrite Hb. unfold bucket_push. apply list_eq. intros j.
    rewrite list_lookup_imap.
    destruct (decide (i = j)) as [<-|Hij].
    + rewrite list_lookup_alter_eq, list_lookup_imap.
      destruct ((buckets0 ++ replicate (length fs) []) !! i); simpl; [|done].
      rewrite E. simpl. rewrite bucket_of_snoc, decide_True by done.
      by rewrite app_assoc.
    + rewrite list_lookup_alter_ne by done. rewrite list_lookup_imap.
      destruct ((buckets0 ++ replicate (length fs) []) !! j); simpl; [|done].
      destruct (fs !! j) as [lj|] eqn:Ej; simpl; [|done].
      rewrite bucket_of_snoc, decide_False; [done|].
      intros <-. apply Hij. by eapply NoDup_lookup.
  - assert (Hnin : label a ∉ label <$> scanned).
    { rewrite <- elem_of_first_seen. intros Hin.
      apply list_elem_of_lookup in Hin as [i Hin].
      apply Hi in Hin. congruence. }
    rewrite decide_False by done. cbn [rg_names rg_indices alignments_by_rg].
    split; [by rewrite Hn, app_assoc|]. split; [|split].
    + intros l i. rewrite lookup_insert. case_decide as Hl.
      * subst l. rewrite Hs. split.
        -- intros [= <-]. by rewrite lookup_app_r, Nat.sub_diag.
        -- intros Hlk. f_equal.
           destruct (decide (i < length fs)) as [Hlt|Hge].
           ++ rewrite lookup_app_l in Hlk by done.
              apply Hi in Hlk. congruence.
           ++ apply lookup_lt_Some in Hlk. rewrite length_app in Hlk.
              simpl in Hlk. lia.
      * rewrite Hi. split.
        -- intros Hlk. rewrite lookup_app_l; [done|].
           by eapply lookup_lt_Some.
        -- intros Hlk.
           destruct (decide (i < length fs)) as [Hlt|Hge].
           ++ by rewrite lookup_app_l in Hlk.
           ++ rewrite lookup_app_r in Hlk by lia.
              destruct (i - length fs) as [|k]; simpl in Hlk;
                [congruence|]. by rewrite lookup_nil in Hlk.
    + rewrite map_size_insert_None by done. rewrite length_app. simpl. lia.
    + rewrite Hs, Hb. unfold bucket_push. apply list_eq. intros j.
      rewrite length_app. simpl length.
      replace (length fs + 1) with (S (length fs)) by lia.
      rewrite replicate_S_end, app_assoc.
      rewrite list_lookup_imap.
      assert (Hlen : length (imap (fun j b => b ++ from_option (bucket_of scanned) [] (fs !! j))
                               (buckets0 ++ replicate (length fs) []))
                     = length buckets0 + length fs)
        by (by rewrite length_imap, length_app, length_replicate).
      destruct (decide (length fs = j)) as [<-|Hj].
      * rewrite list_lookup_alter_eq.
        rewrite (lookup_app_r fs) by lia. rewrite Nat.sub_diag. simpl.
        assert (Hempty : bucket_of scanned (label a) = []).
        { unfold bucket_of.
          destruct (filter _ scanned) as [|b ?] eqn:Ef; [done|].
          exfalso. apply Hnin.
          assert (Hbin : b ∈ filter (fun a0 => label a0 = label a) scanned)
            by (rewrite Ef; left).
          apply list_elem_of_filter in Hbin as [Hl Hbin].
          rewrite <- Hl. by apply list_elem_of_fmap_2. }
        rewrite bucket_of_snoc, decide_True, Hempty by done.
        destruct (decide (length fs < length buckets0 + length fs)) as [Hlt|Hge].
        -- (* the bucket at this index is one of the given ones *)
           rewrite lookup_app_l by (by rewrite Hlen).
           rewrite list_lookup_imap.
           rewrite (lookup_app_l (buckets0 ++ replicate (length fs) []))
             by (rewrite length_app, length_replicate; lia).
           destruct ((buckets0 ++ replicate (length fs) []) !! length fs);
             simpl; [|done].
           rewrite (lookup_ge_None_2 fs) by lia. simpl.
           by rewrite app_nil_r.
        -- assert (length buckets0 = 0) as Hb0 by lia.
           rewrite lookup_app_r by (rewrite Hlen; lia).
           rewrite Hlen, Hb0, Nat.sub_diag. simpl.
           rewrite lookup_app_r
             by (rewrite length_app, length_replicate; lia).
           rewrite length_app, length_replicate, Hb0, Nat.sub_diag. done.
      * rewrite list_lookup_alter_ne by done.
        destruct (decide (j < length buckets0 + length fs)) as [Hlt|Hge].
        -- rewrite lookup_app_l by (by rewrite Hlen).
           rewrite list_lookup_imap.
           rewrite (lookup_app_l (buckets0 ++ replicate (length fs) []))
             by (rewrite length_app, length_replicate; lia).
           destruct ((buckets0 ++ replicate (length fs) []) !! j);
             simpl; [|done].
           destruct (decide (j < length fs)) as [Hjf|Hjf].
           ++ rewrite (lookup_app_l fs) by done.
              destruct (fs !! j) as [lj|] eqn:Ej; simpl; [|done].
              rewrite bucket_of_snoc, decide_False; [done|].
              intros <-. apply Hnin. rewrite <- elem_of_first_seen.
              by eapply list_elem_of_lookup_2.
           ++ rewrite (lookup_ge_None_2 fs) by lia.
              rewrite (lookup_ge_None_2 (fs ++ [label a]))
                by (rewrite length_app; simpl; lia). done.
        -- rewrite lookup_app_r by (rewrite Hlen; lia).
           rewrite Hlen.
           rewrite (lookup_app_r (buckets0 ++ replicate (length fs) []))
             by (rewrite length_app, length_replicate; lia).
           rewrite length_app, length_replicate.
           destruct (j - (length buckets0 + length fs)) as [|k] eqn:Ek;
             simpl; [|by rewrite !lookup_nil].
           rewrite (lookup_ge_None_2 (fs ++ [label a]))
             by (rewrite length_app; simpl; lia). done.
Qed.

Lemma demux_from_loop names0 buckets0 rest : forall scanned st,
  demux_from names0 buckets0 scanned st ->
  demux_from names0 buckets0 (scanned ++ rest) (fold_left dstep rest st).
Proof.
  induction rest as [|a rest IH]; intros scanned st Hinv; simpl.
  - by rewrite app_nil_r.
  - replace (scanned ++ a :: rest) with ((scanned ++ [a]) ++ rest)
      by (by rewrite <- app_assoc).
    apply IH. by apply demux_from_step.
Qed.

(** X18.  On vectors that are not empty the demultiplexer appends the labels to
    the given names but counts the buckets from the first given bucket,
    since [rg_indices] starts empty: the records of the [j]-th label join
    the [j]-th bucket, whatever bucket that was. *)
Theorem demultiplex_into_given_vectors (survivors : list BamAlignment)
        (names0 : list string) (buckets0 : list (list BamAlignment)) :
  let d := demultiplex file_read_groups survivors names0 buckets0 in
  let fs := first_seen (label <$> survivors) in
  rg_names d = names0 ++ fs
  ∧ length (alignments_by_rg d) = length buckets0 + length fs
  ∧ forall j,
      alignments_by_rg d !! j
      = (fun b => b ++ from_option (bucket_of survivors) [] (fs !! j))
          <$> (buckets0 ++ replicate (length fs) []) !! j.
Proof.
  intros d fs.
  pose proof (demux_from_loop names0 buckets0 survivors [] _
                (demux_from_init names0 buckets0)) as (Hn & _ & _ & Hb).
  simpl in Hn, Hb. subst d. unfold demultiplex.
  set (d := fold_left dstep survivors _) in *. fold fs in Hn, Hb.
  split; [done|]. split.
  - by rewrite Hb, length_imap, length_app, length_replicate.
  - intros j. by rewrite Hb, list_lookup_imap.
Qed.
End DemuxMore.

(** ** The function as a whole *)

Section WholeFunction.
Variable tag_ok : string -> string -> bool.
Variable file_read_groups : gmap string string.
Variable region : Region.
Variable BamWriter : Type.
Variable IsOpen : BamWriter -> bool.
Variable SaveAlignment : BamAlignment -> BamWriter -> bool * BamWriter.
Variable AF : AlignmentFilters.
Variable P : BamProcessor.
Variable chrom_seq : string.

Abbreviation stamp := (tag_read tag_ok file_read_groups region).
Abbreviation whole :=
  (read_and_filter_reads tag_ok file_read_groups region BamWriter IsOpen
     SaveAlignment AF P chrom_seq).
Abbreviation survivors_of reader :=
  (region_alignments (filter_reads AF P chrom_seq region reader)).
Abbreviation label := (label file_read_groups).
Abbreviation bucket_of := (bucket_of file_read_groups).
Abbreviation handed_on :=
  (handed_on tag_ok file_read_groups region BamWriter IsOpen).

Lemma whole_unfold reader names0 buckets0 w :
  whole reader names0 buckets0 w
  = if IsOpen w then
      match annotate_reads tag_ok file_read_groups region BamWriter
              SaveAlignment (survivors_of reader) w with
      | (w', Ok written) =>
          (w', Ok (counts (filter_reads AF P chrom_seq region reader),
                   demultiplex file_read_groups written names0 buckets0))
      | (w', Died msg) => (w', Died msg)
      end
    else (w, Ok (counts (filter_reads AF P chrom_seq region reader),
                 demultiplex file_read_groups (survivors_of reader)
                   names0 buckets0)).
Proof.
  unfold read_and_filter_reads, mbind, M_bind, m_bind, m_get, mret, M_ret,
    m_ret.
  destruct (IsOpen w); [|done].
  by destruct (annotate_reads _ _ _ _ _ _ w) as [w' [written|msg]].
Qed.

Lemma tag_read_keeps_file read read' o :
  stamp read = (read', o) -> Filename read' = Filename read.
Proof.
  intros H. apply tag_read_shape in H as [(_&_&_&_&_&Hf) _].
  rewrite Hf. unfold AddTag. destruct (tag_ok "RG" "Z"); simpl; [|done].
  by destruct (HasTag "RG" read).
Qed.

Lemma handed_on_label w r r' : handed_on w r r' -> label r' = label r.
Proof.
  unfold handed_on, label. destruct (IsOpen w).
  - intros H. by rewrite (tag_read_keeps_file _ _ _ H).
  - by intros ->.
Qed.

Lemma Forall2_bucket_of w S S' l :
  Forall2 (handed_on w) S S' ->
  Forall2 (handed_on w) (bucket_of S l) (bucket_of S' l).
Proof.
  unfold bucket_of. induction 1 as [|r r' S S' Hr HS IH]; [done|].
  rewrite !filter_cons. rewrite (handed_on_label _ _ _ Hr).
  destruct (decide (label r = l)); [by constructor|done].
Qed.

Lemma Forall2_labels w S S' :
  Forall2 (handed_on w) S S' -> label <$> S' = label <$> S.
Proof.
  induction 1 as [|r r' S S' Hr HS IH]; [done|].
  rewrite !fmap_cons, IH. f_equal. by eapply handed_on_label.
Qed.

Lemma whole_Ok reader names0 buckets0 w w' c d :
  whole reader names0 buckets0 w = (w', Ok (c, d)) ->
  c = counts (filter_reads AF P chrom_seq region reader)
  ∧ exists written,
      Forall2 (handed_on w) (survivors_of reader) written
      ∧ d = demultiplex file_read_groups written names0 buckets0
      ∧ w' = if IsOpen w
             then fold_left (fun w r' => snd (SaveAlignment r' w)) written w
             else w.
Proof.
  rewrite whole_unfold. unfold handed_on. destruct (IsOpen w).
  - destruct (annotate_reads _ _ _ _ _ _ w) as [w1 [written|msg]] eqn:E;
      [|done].
    intros [= <- <- <-]. split; [done|]. exists written.
    apply annotate_reads_Ok in E as [Hall ->]. done.
  - intros [= <- <- <-]. split; [done|]. exists (survivors_of reader).
    split; [|done]. apply Forall_Forall2_diag. by apply Forall_forall.
Qed.

(** X19.  When the function returns, the counts are those of the filter loop,
    the labels are those of the survivors in order of first appearance,
    and the bucket of a label holds the survivors of that label in stream
    order, as tagged when the output file is open. *)
Theorem grouping_ignores_annotation (reader : list BamAlignment)
        (w w' : BamWriter) (c : Counters) (d : Demux) :
  whole reader [] [] w = (w', Ok (c, d)) ->
  c = counts (filter_reads AF P chrom_seq region reader)
  ∧ rg_names d = first_seen (label <$> survivors_of reader)
  ∧ Forall2 (fun l b => Forall2 (handed_on w)
                          (bucket_of (survivors_of reader) l) b)
      (rg_names d) (alignments_by_rg d).
Proof.
  intros H. apply whole_Ok in H as (-> & written & Hall & -> & _).
  split; [done|].
  pose proof (demux_inv_loop file_read_groups written [] _
                (demux_inv_init file_read_groups)) as (Hn & _ & _ & Hb).
  simpl in Hn, Hb. unfold demultiplex.
  rewrite Hb, Hn, (Forall2_labels _ _ _ Hall). split; [done|].
  apply Forall2_fmap_r, Forall_Forall2_diag, Forall_forall.
  intros l _. by apply Forall2_bucket_of.
Qed.

(** X20.  When the function returns, the number of records read is the sum of
    the nine failure counts and the number of records in the buckets. *)
Theorem reads_are_failures_plus_bucketed (reader : list BamAlignment)
        (w w' : BamWriter) (c : Counters) (d : Demux) :
  (Z.of_nat (length reader) <= INT_MAX)%Z ->
  whole reader [] [] w = (w', Ok (c, d)) ->
  (read_count c
   = failures c + Z.of_nat (length (concat (alignments_by_rg d))))%Z.
Proof.
  intros Hlen H. apply whole_Ok in H as (-> & written & Hall & -> & _).
  pose proof (demux_concat_loop file_read_groups written [] _
                (demux_inv_init file_read_groups) (reflexivity _)) as Hc.
  simpl in Hc. unfold demultiplex. rewrite Hc.
  rewrite <- (Forall2_length _ _ _ Hall).
  destruct (counted_loop AF P chrom_seq region reader 0 init_state)
    as (H1 & H2 & _).
  - lia.
  - unfold counted, failures. simpl. lia.
  - unfold filter_reads. rewrite H1, H2. lia.
Qed.

(** X21.  The records written to the output file are the records put into the
    buckets: with an open file the file receives the tagged survivors in
    stream order and the buckets hold the same records; with no open file
    nothing is written. *)
Theorem whole_writes_what_it_buckets (reader : list BamAlignment)
        (w w' : BamWriter) (c : Counters) (d : Demux) :
  whole reader [] [] w = (w', Ok (c, d)) ->
  exists written,
    Forall2 (handed_on w) (survivors_of reader) written
    ∧ concat (alignments_by_rg d) ≡ₚ written
    ∧ w' = if IsOpen w
           then fold_left (fun w r' => snd (SaveAlignment r' w)) written w
           else w.
Proof.
  intros H. apply whole_Ok in H as (_ & written & Hall & -> & ->).
  exists written. split; [done|]. split; [|done].
  apply (demux_concat_loop file_read_groups written [] _
           (demux_inv_init file_read_groups) (reflexivity _)).
Qed.

(** X22.  The function can only abort while writing: a fatal error implies an
    open output file and is one of the three messages of the annotation
    loop.  Filtering and demultiplexing never abort. *)
Theorem whole_aborts_only_when_writing (reader : list BamAlignment)
        (names0 : list string) (buckets0 : list (list BamAlignment))
        (w w' : BamWriter) (msg : string) :
  whole reader names0 buckets0 w = (w', Died msg) ->
  IsOpen w = true
  ∧ (msg = "Failed to modify XS tag" ∨ msg = "Failed to modify XE tag"
     ∨ msg = "Failed to save alignment for STR-spanning read").
Proof.
  rewrite whole_unfold. destruct (IsOpen w); [|done].
  destruct (annotate_reads _ _ _ _ _ _ w) as [w1 [written|msg']] eqn:E;
    [done|].
  intros [= <- <-]. split; [done|].
  by apply annotate_reads_Died in E.
Qed.
End WholeFunction.

Local Open Scope Z_scope.

(** ** The loop over the regions *)

Lemma changes_subset prev ids x : x ∈ changes prev ids -> x ∈ ids.
Proof.
  revert prev. induction ids as [|i ids IH]; intros prev; simpl; [done|].
  destruct (prev =? i).
  - intros H. right. by eapply IH.
  - rewrite !elem_of_cons. intros [->|H]; [by left|]. right. by eapply IH.
Qed.

Lemma changes_grouped_head i ids :
  grouped (i :: ids) -> NoDup (changes i ids) ∧ i ∉ changes i ids.
Proof.
  revert i. induction ids as [|j ids IH]; intros i [Hi Hg].
  - simpl. split; [constructor|apply not_elem_of_nil].
  - simpl. destruct (Z.eqb_spec i j) as [<-|Hne].
    + by apply IH.
    + destruct (IH j Hg) as [Hnd Hj].
      assert (Hi' : i ∉ j :: ids).
      { intros Hin. specialize (Hi Hin). simpl in Hi. congruence. }
      split.
      * by constructor.
      * intros Hin. apply Hi'. apply elem_of_cons in Hin as [->|Hin];
          [by left|]. right. by eapply changes_subset.
Qed.

Lemma changes_grouped prev ids : grouped ids -> NoDup (changes prev ids).
Proof.
  destruct ids as [|i ids]; [constructor|]. intros Hg. simpl.
  destruct (changes_grouped_head _ _ Hg) as [Hnd Hi].
  destruct (prev =? i); [done|]. by constructor.
Qed.

Lemma Region_le_chrom a b :
  Region_le a b -> String.compare (chrom a) (chrom b) ≠ Gt.
Proof.
  rewrite Region_le_cmp. unfold Region_cmp.
  by destruct (String.compare (chrom a) (chrom b)).
Qed.

Lemma sorted_regions_grouped (f : string -> Z) regions :
  StronglySorted Region_le regions ->
  (forall r r', r ∈ regions -> r' ∈ regions ->
                f (chrom r) = f (chrom r') -> chrom r = chrom r') ->
  grouped ((fun r => f (chrom r)) <$> regions).
Proof.
  induction 1 as [|r regions Hs IH Hr]; intros Hinj; [done|].
  rewrite fmap_cons. split.
  - intros Hin. apply list_elem_of_fmap in Hin as (r' & Heq & Hin).
    destruct regions as [|h regions]; [by apply elem_of_nil in Hin|].
    simpl. f_equal. symmetry.
    assert (chrom r = chrom r') as Hc
        by (apply Hinj; [left|by right|done]).
    assert (chrom h = chrom r); [|congruence].
    apply String.compare_eq_iff.
    apply Forall_cons in Hr as [Hrh _]. apply Region_le_chrom in Hrh.
    assert (String.compare (chrom h) (chrom r') ≠ Gt) as Hhr'.
    { apply elem_of_cons in Hin as [->|Hin].
      - by rewrite string_compare_refl.
      - apply StronglySorted_inv in Hs as [_ Hh].
        rewrite Forall_forall in Hh. by apply Region_le_chrom, Hh. }
    rewrite <- Hc in Hhr'. rewrite String.compare_antisym in Hrh.
    destruct (String.compare (chrom h) (chrom r)); simpl in *; congruence.
  - apply IH. intros a b Ha Hb. apply Hinj; by right.
Qed.

Section ProcessRegionsFacts.
Variable tag_ok : string -> string -> bool.
Variable file_read_groups : gmap string string.
Variable BamWriter : Type.
Variable IsOpen : BamWriter -> bool.
Variable SaveAlignment : BamAlignment -> BamWriter -> bool * BamWriter.
Variable AF : AlignmentFilters.
Variable P : BamProcessor.
Variable GetReferenceID : string -> Z.
Variable ref_vector : list string.
Variable readFasta : string -> string -> string -> outcome string.
Variable fasta_dir : string.
Variable SetRegion : Z -> Z -> Z -> Z -> option (list BamAlignment).

Abbreviation load := (load_chrom BamWriter ref_vector readFasta fasta_dir).
Abbreviation body :=
  (process_region tag_ok file_read_groups BamWriter IsOpen SaveAlignment AF P
     GetReferenceID ref_vector readFasta fasta_dir SetRegion).
Abbreviation loop :=
  (process_regions tag_ok file_read_groups BamWriter IsOpen SaveAlignment AF P
     GetReferenceID ref_vector readFasta fasta_dir SetRegion).
Abbreviation id_of r := (GetReferenceID (chrom r)).
Abbreviation name_at := (ref_at ref_vector).

(** What [load_chrom] does, case by case. *)
Lemma load_chrom_cases chrom_id (s s' : ProcState BamWriter) o :
  load chrom_id s = (s', o) ->
  bam_writer s' = bam_writer s ∧ handoffs s' = handoffs s
  ∧ ((cur_chrom_id s = chrom_id ∧ s' = s ∧ o = None)
     ∨ (cur_chrom_id s ≠ chrom_id ∧ cur_chrom_id s' = chrom_id
        ∧ ((name_at chrom_id = None ∧ o = Some (OutOfRange chrom_id)
            ∧ fasta_log s' = fasta_log s ∧ chrom_seq s' = chrom_seq s)
           ∨ exists name,
               name_at chrom_id = Some name
               ∧ fasta_log s' = fasta_log s ++ [(chrom_id, name +:+ ".fa")]
               ∧ ((o = None
                   ∧ readFasta (name +:+ ".fa") fasta_dir (chrom_seq s)
                     = Ok (chrom_seq s'))
                  ∨ (exists msg,
                       o = Some (Fatal msg) ∧ chrom_seq s' = chrom_seq s
                       ∧ readFasta (name +:+ ".fa") fasta_dir (chrom_seq s)
                         = Died msg))))).
Proof.
  unfold load_chrom. destruct (Z.eqb_spec (cur_chrom_id s) chrom_id) as [He|Hne];
    simpl.
  - intros [= <- <-]. split; [done|]. split; [done|]. by left.
  - destruct (name_at chrom_id) as [name|] eqn:En.
    + destruct (readFasta _ _ _) as [seq|msg] eqn:Er; intros [= <- <-];
        (split; [done|]); (split; [done|]); right; (split; [done|]);
        (split; [done|]); right; exists name; (split; [done|]);
        (split; [done|]).
      * by left.
      * right. by exists msg.
    + intros [= <- <-]. split; [done|]. split; [done|]. right.
      split; [done|]. split; [done|]. by left.
Qed.

(** What one round of the loop does to the state. *)
Lemma process_region_cases region (s s' : ProcState BamWriter) o :
  body region s = (s', o) ->
  exists s1 o1,
    load (id_of region) s = (s1, o1)
    ∧ cur_chrom_id s' = cur_chrom_id s1 ∧ chrom_seq s' = chrom_seq s1
    ∧ fasta_log s' = fasta_log s1
    ∧ ((o1 = o ∧ o ≠ None ∧ s' = s1)
       ∨ (o1 = None
          ∧ ((SetRegion (id_of region) (start region) (id_of region)
                (stop region) = None
              ∧ o = Some (Fatal "One or more BAM files failed to set the region properly")
              ∧ s' = s1)
             ∨ exists reader,
                 SetRegion (id_of region) (start region) (id_of region)
                   (stop region) = Some reader
                 ∧ ((exists msg, o = Some (Fatal msg)
                                 ∧ handoffs s' = handoffs s1)
                    ∨ (o = None
                       ∧ exists h,
                           handoffs s' = handoffs s1 ++ [h]
                           ∧ h_region h = region
                           ∧ h_chrom_seq h = chrom_seq s1))))).
Proof.
  unfold process_region.
  destruct (load (id_of region) s) as [s1 [e|]] eqn:El.
  - intros [= <- <-]. exists s1, (Some e). repeat split; try done. by left.
  - destruct (SetRegion _ _ _ _) as [reader|] eqn:Es.
    + destruct (read_and_filter_reads _ _ _ _ _ _ _ _ _ _ _ _ _)
        as [w [[c d]|msg]]; intros [= <- <-]; exists s1, None; simpl;
        (split; [done|]); (split; [done|]); (split; [done|]);
        (split; [done|]); right; (split; [done|]); right; exists reader;
        (split; [done|]).
      * right. split; [done|]. by eexists.
      * left. by exists msg.
    + intros [= <- <-]. exists s1, None. repeat split; try done. right.
      split; [done|]. by left.
Qed.

Lemma process_region_stops region (s s' : ProcState BamWriter) e :
  body region s = (s', Some e) -> e ≠ Finished.
Proof.
  intros Eb ->.
  apply process_region_cases in Eb as (s0 & o0 & Hl & _ & _ & _ & Hcases).
  destruct Hcases as [(-> & _ & ->)|(_ & [(_ & ? & _)|(reader & _ & Hrd)])];
    try done.
  - apply load_chrom_cases in Hl
      as (_ & _ & [(_ & _ & ?)|(_ & _ & [(_ & ? & _)|(n & _ & _ & [(?&_)|(m & ? & _)])])]);
      done.
  - destruct Hrd as [(msg & ? & _)|(? & _)]; done.
Qed.

Lemma process_regions_app pre rest (s : ProcState BamWriter) :
  loop (pre ++ rest) s
  = match loop pre s with
    | (s1, Finished) => loop rest s1
    | other => other
    end.
Proof.
  revert s. induction pre as [|r pre IH]; intros s; [done|].
  simpl. destruct (body r s) as [s1 [e|]] eqn:Eb; [|apply IH].
  apply process_region_stops in Eb. by destruct e.
Qed.

(** X23.  [process_reads] is called for the regions in their order, once each,
    up to the region at which the loop ends: for all of them when the loop
    runs to its end, for a proper prefix otherwise. *)
Theorem handoffs_follow_the_regions (regions : list Region)
        (s s' : ProcState BamWriter) (e : Ending) :
  loop regions s = (s', e) ->
  exists k : nat,
    h_region <$> handoffs s' = (h_region <$> handoffs s) ++ take k regions
    ∧ (e = Finished -> k = length regions)
    ∧ (e ≠ Finished -> (k < length regions)%nat).
Proof.
  revert s. induction regions as [|r regions IH]; intros s.
  - intros [= <- <-]. exists 0%nat. by rewrite app_nil_r.
  - simpl. destruct (body r s) as [s1 o] eqn:Eb.
    assert (Hstop : forall e0, o = Some e0 -> e0 ≠ Finished)
      by (intros e0 ->; by eapply process_region_stops).
    apply process_region_cases in Eb
      as (s0 & o0 & Hl & _ & _ & _ & Hcases).
    apply load_chrom_cases in Hl as (_ & Hh0 & _).
    assert (Hzero : forall e0, o = Some e0 -> handoffs s1 = handoffs s ->
              exists k : nat,
                h_region <$> handoffs s1
                = (h_region <$> handoffs s) ++ take k (r :: regions)
                ∧ (e0 = Finished -> k = length (r :: regions))
                ∧ (e0 ≠ Finished -> (k < length (r :: regions))%nat)).
    { intros e0 Ho Hh. exists 0%nat. rewrite Hh, app_nil_r.
      split; [done|]. split; [by intros ?; apply Hstop in Ho|].
      intros _. simpl. lia. }
    destruct Hcases as [(_ & Ho & ->)|(-> & [(_ & -> & ->)|(reader & _ & Hr)])].
    + destruct o as [e0|]; [|done]. intros [= <- <-]. by apply Hzero.
    + intros [= <- <-]. by apply Hzero.
    + destruct Hr as [(msg & -> & Hh)|(-> & h & Hh & Hhr & _)].
      * intros [= <- <-]. apply Hzero; [done|]. by rewrite Hh.
      * intros Hrun. apply IH in Hrun as (k & Hk & Hfin & Hnot).
        exists (S k). rewrite Hk, Hh, Hh0, fmap_app, <- app_assoc. simpl.
        rewrite Hhr. split; [done|]. split; [auto|].
        intros Hne. specialize (Hnot Hne). lia.
Qed.

(** The ids [readFasta] was called for in a run that reached its end. *)
Lemma finished_fasta_ids regions : forall (s s' : ProcState BamWriter),
  loop regions s = (s', Finished) ->
  fst <$> fasta_log s'
  = (fst <$> fasta_log s) ++ changes (cur_chrom_id s) ((fun r => id_of r) <$> regions).
Proof.
  induction regions as [|r regions IH]; intros s s'.
  - intros [= <-]. by rewrite app_nil_r.
  - simpl. destruct (body r s) as [s1 o] eqn:Eb.
    destruct o as [e0|].
    { intros [= <- ->]. by apply process_region_stops in Eb. }
    apply process_region_cases in Eb
      as (s0 & o0 & Hl & Hc & _ & Hlog & Hcases).
    intros Hrun. apply IH in Hrun. rewrite Hrun, Hlog, Hc.
    destruct Hcases as [(_ & ? & _)|(-> & _)]; [done|].
    apply load_chrom_cases in Hl
      as (_ & _ & [(He & -> & _)|(Hne & Hcur & [(_ & ? & _)|(n & _ & Hlg & _)])]);
      try done.
    + rewrite He, Z.eqb_refl. done.
    + rewrite Hcur, Hlg, fmap_app. simpl.
      destruct (Z.eqb_spec (cur_chrom_id s) (id_of r)); [done|].
      by rewrite <- app_assoc.
Qed.

(** Every logged call of [readFasta] names the file of its chromosome. *)
Lemma fasta_log_names regions : forall (s s' : ProcState BamWriter) e,
  loop regions s = (s', e) ->
  Forall (fun c => exists name, name_at c.1 = Some name
                                ∧ c.2 = name +:+ ".fa") (fasta_log s) ->
  Forall (fun c => exists name, name_at c.1 = Some name
                                ∧ c.2 = name +:+ ".fa") (fasta_log s').
Proof.
  induction regions as [|r regions IH]; intros s s' e.
  - by intros [= <- <-].
  - simpl. destruct (body r s) as [s1 o] eqn:Eb. intros Hrun Hs.
    assert (Hs1 : Forall (fun c => exists name, name_at c.1 = Some name
                                     ∧ c.2 = name +:+ ".fa") (fasta_log s1)).
    { apply process_region_cases in Eb as (s0 & o0 & Hl & _ & _ & -> & _).
      apply load_chrom_cases in Hl
        as (_ & _ & [(_ & -> & _)|(_ & _ & [(_ & _ & -> & _)|(n & Hn & -> & _)])]);
        try done.
      apply Forall_app. split; [done|]. apply Forall_singleton. by exists n. }
    destruct o as [e0|]; [by injection Hrun as <- <-|]. by eapply IH.
Qed.

(** X24.  In a run that finishes, [readFasta] is called exactly for the regions
    whose reference id differs from the one before (from -1 for the
    first), and each time for the file [<RefName>.fa] of that id. *)
Theorem fasta_is_read_on_chromosome_change (regions : list Region)
        (w : BamWriter) (s' : ProcState BamWriter) :
  loop regions (proc_start BamWriter w) = (s', Finished) ->
  fst <$> fasta_log s' = changes (-1) ((fun r => id_of r) <$> regions)
  ∧ Forall (fun c => exists name, name_at c.1 = Some name
                                  ∧ c.2 = name +:+ ".fa") (fasta_log s').
Proof.
  intros Hrun. split.
  - by rewrite (finished_fasta_ids _ _ _ Hrun).
  - eapply fasta_log_names; [exact Hrun|]. constructor.
Qed.

(** X25.  When the regions are in the order of [operator<] and different
    chromosome names have different reference ids, a run that finishes
    reads the FASTA file of no chromosome twice. *)
Theorem sorted_regions_read_each_fasta_once (regions : list Region)
        (w : BamWriter) (s' : ProcState BamWriter) :
  StronglySorted Region_le regions ->
  (forall r r', r ∈ regions -> r' ∈ regions ->
                id_of r = id_of r' -> chrom r = chrom r') ->
  loop regions (proc_start BamWriter w) = (s', Finished) ->
  NoDup (fst <$> fasta_log s').
Proof.
  intros Hsorted Hinj Hrun.
  rewrite (finished_fasta_ids _ _ _ Hrun). simpl.
  apply changes_grouped. by apply (sorted_regions_grouped GetReferenceID).
Qed.

(** X26.  When [SetRegion] fails for a region, the loop ends there with the
    message of line 171: the regions after it are not looked at, no call of
    [process_reads] is made for it and nothing is written. *)
Theorem unpositionable_region_is_fatal (pre post : list Region) (r : Region)
        (s s1 s2 : ProcState BamWriter) :
  loop pre s = (s1, Finished) ->
  load (id_of r) s1 = (s2, None) ->
  SetRegion (id_of r) (start r) (id_of r) (stop r) = None ->
  loop (pre ++ r :: post) s
  = (s2, Fatal "One or more BAM files failed to set the region properly")
  ∧ handoffs s2 = handoffs s1 ∧ bam_writer s2 = bam_writer s1.
Proof.
  intros Hpre Hl Hs. rewrite process_regions_app, Hpre. simpl.
  unfold process_region. rewrite Hl, Hs. split; [done|].
  apply load_chrom_cases in Hl. tauto.
Qed.

(** X27.  When the reference id of every region's chromosome is an index of
    [ref_vector], the loop never indexes [ref_vector] out of range. *)
Theorem known_chromosomes_never_out_of_range (regions : list Region)
        (s s' : ProcState BamWriter) (e : Ending) :
  Forall (fun r => is_Some (name_at (id_of r))) regions ->
  loop regions s = (s', e) ->
  forall i, e ≠ OutOfRange i.
Proof.
  intros Hall. revert s. induction Hall as [|r regions Hr Hall IH]; intros s.
  - by intros [= <- <-].
  - simpl. destruct (body r s) as [s1 o] eqn:Eb.
    destruct o as [e0|]; [|by apply IH]. intros [= <- <-] i ->.
    apply process_region_cases in Eb as (s0 & o0 & Hl & _ & _ & _ & Hcases).
    destruct Hcases as [(Ho & _ & _)|(_ & [(_ & ? & _)|(reader & _ & Hrd)])];
      try done.
    + apply load_chrom_cases in Hl
        as (_ & _ & [(_ & _ & ?)|(_ & _ & [(Hn & _ & _)|(n & _ & _ & [(?&_)|(m & ? & _)])])]);
        try congruence.
      destruct Hr as [? Hr]. congruence.
    + destruct Hrd as [(msg & ? & _)|(? & _)]; done.
Qed.

(** X28.  When [readFasta] succeeds, the reference sequence [process_regions]
    gives the filter for a region is the content of the FASTA file of that
    region's chromosome; a region whose id is no index of [ref_vector] is
    filtered only when that id is -1, and then against the empty
    sequence. *)
Theorem filter_sees_the_regions_chromosome (content : string -> string)
        (regions : list Region) (w : BamWriter)
        (s' : ProcState BamWriter) (e : Ending) :
  (forall file buf, readFasta file fasta_dir buf = Ok (content file)) ->
  loop regions (proc_start BamWriter w) = (s', e) ->
  Forall (fun h =>
            match name_at (id_of (h_region h)) with
            | Some name => h_chrom_seq h = content (name +:+ ".fa")
            | None => id_of (h_region h) = -1 ∧ h_chrom_seq h = ""
            end) (handoffs s').
Proof.
  intros Hread.
  set (ok := fun h : Handoff =>
               match name_at (id_of (h_region h)) with
               | Some name => h_chrom_seq h = content (name +:+ ".fa")
               | None => id_of (h_region h) = -1 ∧ h_chrom_seq h = ""
               end).
  set (coherent := fun s : ProcState BamWriter =>
                     match name_at (cur_chrom_id s) with
                     | Some name => chrom_seq s = content (name +:+ ".fa")
                     | None => cur_chrom_id s = -1 ∧ chrom_seq s = ""
                     end).
  assert (Hloop : forall regions (s s' : ProcState BamWriter) e,
             coherent s -> Forall ok (handoffs s) ->
             loop regions s = (s', e) -> Forall ok (handoffs s')).
  { clear regions s' e. induction regions as [|r regions IH];
      intros s s' e Hco Hok.
    - by intros [= <- <-].
    - simpl. destruct (body r s) as [s1 o] eqn:Eb.
      apply process_region_cases in Eb
        as (s0 & o0 & Hl & Hc & Hq & _ & Hcases).
      apply load_chrom_cases in Hl as (_ & Hh0 & Hload).
      assert (Hh1 : o ≠ None -> handoffs s1 = handoffs s).
      { intros Ho.
        destruct Hcases as [(_ & _ & ->)|(_ & [(_ & _ & ->)|(rd & _ & Hr)])];
          try done.
        destruct Hr as [(msg & _ & ->)|(? & _)]; done. }
      destruct o as [e0|].
      { intros [= <- <-]. by rewrite Hh1. }
      destruct Hcases as [(_ & ? & _)|(-> & Hcases)]; [done|].
      assert (Hco0 : coherent s0 ∧ cur_chrom_id s0 = id_of r).
      { destruct Hload
          as [(He & -> & _)|(_ & Hcur & [(_ & ? & _)|(n & Hn & _ & Hrd)])];
          try done.
        unfold coherent. rewrite Hcur, Hn. split; [|done].
        destruct Hrd as [(_ & Hrd)|(m & ? & _)]; [|done].
        rewrite Hread in Hrd. by injection Hrd as <-. }
      destruct Hco0 as [Hco0 Hid].
      destruct Hcases as [(_ & ? & _)|(rd & _ & [(m & ? & _)|(_ & h & Hh & Hhr & Hhs)])];
        try done.
      apply IH.
      + unfold coherent in *. by rewrite Hc, Hq.
      + rewrite Hh, Hh0. apply Forall_app. split; [done|].
        apply Forall_singleton. unfold ok, coherent in *.
        rewrite Hhr, Hhs, <- Hid. done. }
  intros Hrun. eapply Hloop; [| |exact Hrun].
  - unfold coherent. simpl. unfold ref_at. simpl. done.
  - constructor.
Qed.
End ProcessRegionsFacts.

(** ** [Region::str] *)

Lemma split_at_first (c : ascii) (s1 s2 t1 t2 : string) :
  ¬ occurs c s1 -> ¬ occurs c s2 ->
  s1 +:+ String c t1 = s2 +:+ String c t2 -> s1 = s2 ∧ t1 = t2.
Proof.
  revert s2. induction s1 as [|a s1 IH]; intros [|b s2] H1 H2; simpl in *.
  - by intros [= ->].
  - intros [= <- _]. tauto.
  - intros [= -> _]. tauto.
  - intros [= -> Heq]. destruct (IH s2) as [-> ->]; tauto.
Qed.

Lemma digits_no_minus d : ¬ occurs "-"%char (NilEmpty.string_of_uint d).
Proof.
  induction d; simpl; try tauto; intros [H|H]; try done; discriminate.
Qed.

Lemma uint_no_minus d : ¬ occurs "-"%char (NilZero.string_of_uint d).
Proof.
  destruct d; try apply digits_no_minus.
  simpl. intros [H|H]; [discriminate|done].
Qed.

Lemma uint_nonempty d : NilZero.string_of_uint d ≠ "".
Proof. by destruct d. Qed.

(** The shape of a printed number. *)
Lemma put_int_shape z :
  exists d, put_int z = NilZero.string_of_uint d
            ∨ put_int z = String "-" (NilZero.string_of_uint d).
Proof.
  unfold put_int. destruct (Z.to_int z) as [d|d]; exists d; simpl; auto.
Qed.

Lemma put_int_inj a b : put_int a = put_int b -> a = b.
Proof.
  unfold put_int. intros H. apply to_int_inj.
  assert (Hn : forall z, Z.to_int z ≠ Decimal.Pos Decimal.Nil
                         ∧ Z.to_int z ≠ Decimal.Neg Decimal.Nil).
  { intros [|p|p]; simpl; split; try done; intros [= Hp];
      by apply Unsigned.to_uint_nonnil in Hp. }
  destruct (Hn a) as [Ha1 Ha2], (Hn b) as [Hb1 Hb2].
  pose proof (NilZero.isi _ Ha1 Ha2) as Ia.
  pose proof (NilZero.isi _ Hb1 Hb2) as Ib.
  rewrite H in Ia. congruence.
Qed.

Lemma split_numbers a b a' b' :
  put_int a +:+ String "-" (put_int b) = put_int a' +:+ String "-" (put_int b')
  -> a = a' ∧ b = b'.
Proof.
  intros H.
  assert (put_int a = put_int a' ∧ put_int b = put_int b') as [Ha Hb];
    [|split; by apply put_int_inj].
  destruct (put_int_shape a) as (d & [Hd|Hd]),
           (put_int_shape a') as (d' & [Hd'|Hd']);
    rewrite Hd, Hd' in *.
  - apply split_at_first in H; [done|apply uint_no_minus..].
  - exfalso. pose proof (uint_no_minus d) as Hm. pose proof (uint_nonempty d).
    destruct (NilZero.string_of_uint d) as [|c s]; [done|].
    simpl in H. injection H as -> _. apply Hm. by left.
  - exfalso. pose proof (uint_no_minus d') as Hm.
    pose proof (uint_nonempty d').
    destruct (NilZero.string_of_uint d') as [|c s]; [done|].
    simpl in H. injection H as <- _. apply Hm. by left.
  - simpl in H. injection H as H.
    apply split_at_first in H as [-> ->]; [done|apply uint_no_minus..].
Qed.

(** X29.  For chromosome names without a colon, [str()] determines the
    chromosome, the start and the stop: two regions with the same string
    have the same three. *)
Theorem str_determines_coordinates (r1 r2 : Region) :
  ¬ occurs ":"%char (chrom r1) -> ¬ occurs ":"%char (chrom r2) ->
  str r1 = str r2 ->
  chrom r1 = chrom r2 ∧ start r1 = start r2 ∧ stop r1 = stop r2.
Proof.
  unfold str. intros H1 H2 H.
  apply split_at_first in H as [Hc H]; [|done..].
  split; [done|]. by apply split_numbers.
Qed.

Example str_example : str (mkRegion "chr1" "" 100 200 2) = "chr1:100-200".
Proof. reflexivity. Qed.

(** ** Worked instances of the further properties *)

(** ** Worked instances of the further properties *)

Lemma Region_lt_strict_order_witness :
  Region_ltb region_c region_a = true
  ∧ Region_ltb region_b region_c = false
  ∧ Region_ltb region_c region_c = false.
Proof.
  apply (Region_lt_strict_order region_c region_b region_a); reflexivity.
Defined.

Lemma add_regions_members_witness :
  num_regions group_abc = 3%nat
  ∧ chrom_ group_abc = chrom region_a
  ∧ Forall (fun r => chrom r = chrom region_a) (regions_ group_abc)
  ∧ regions_ group_abc ≡ₚ region_a :: [region_b; region_c].
Proof.
  apply (add_regions_members region_a [region_b; region_c] group_abc).
  reflexivity.
Defined.

Lemma group_span_covers_members_witness :
  (forall r, r ∈ regions_ group_abc ->
             start_ group_abc <= start r ∧ stop r <= stop_ group_abc)
  ∧ (Forall (fun r => start r < stop r) (region_a :: [region_b; region_c]) ->
     start_ group_abc < stop_ group_abc).
Proof.
  apply (group_span_covers_members region_a [region_b; region_c] group_abc).
  reflexivity.
Defined.

Lemma group_front_has_group_start_witness :
  start region_c = start_ group_abc.
Proof.
  apply (group_front_has_group_start region_a [region_b; region_c]
           group_abc region_c); reflexivity.
Defined.

Lemma add_regions_stops_at_first_foreign_witness :
  exists g,
    add_regions [region_b] (RegionGroup_new region_a) = (g, Ok tt)
    ∧ add_regions ([region_b] ++ region_d :: [region_c])
        (RegionGroup_new region_a)
      = (g, Died "RegionGroup can only consist of regions on a single chromosome").
Proof.
  apply (add_regions_stops_at_first_foreign region_a [region_b] [region_c]
           region_d).
  - repeat constructor.
  - simpl. discriminate.
Defined.

Lemma add_regions_order_irrelevant_witness :
  exists g',
    add_regions [region_c; region_b] (RegionGroup_new region_a) = (g', Ok tt)
    ∧ chrom_ g' = chrom_ group_abc ∧ start_ g' = start_ group_abc
    ∧ stop_ g' = stop_ group_abc ∧ regions_ g' ≡ₚ regions_ group_abc.
Proof.
  apply (add_regions_order_irrelevant region_a [region_b; region_c]
           [region_c; region_b] group_abc).
  - apply perm_swap.
  - reflexivity.
Defined.

Lemma counter_is_tally_of_first_failures_witness :
  counter_of InsufficientFlank
    (counts (filter_reads sample_filters sample_config "" str_region
               sample_reader))
  = Z.of_nat
      (length
         (filter (fun a => first_failure sample_filters sample_config ""
                             str_region a = Some InsufficientFlank)
            sample_reader)).
Proof.
  apply (counter_is_tally_of_first_failures sample_filters sample_config ""
           str_region sample_reader InsufficientFlank).
  - unfold INT_MAX. simpl. lia.
  - unfold flank_defined, in_int32, INT_MIN, INT_MAX. simpl. lia.
  - repeat constructor; unfold abs_defined, in_int32, INT_MIN, INT_MAX;
      simpl; lia.
Defined.

Lemma nonpositive_flank_disables_check_witness :
  filter_reads sample_filters negative_flank_config "" str_region
    sample_reader
  = filter_reads_noflank sample_filters negative_flank_config "" str_region
      sample_reader.
Proof.
  apply (nonpositive_flank_disables_check sample_filters
           negative_flank_config "" str_region sample_reader).
  - simpl. lia.
  - unfold flank_defined, in_int32, INT_MIN, INT_MAX. simpl. lia.
Defined.

Lemma nonpositive_mate_distance_rejects_all_witness :
  region_alignments
    (filter_reads sample_filters no_distance_config "" str_region
       sample_reader) = [].
Proof.
  apply (nonpositive_mate_distance_rejects_all sample_filters
           no_distance_config "" str_region sample_reader).
  - simpl. lia.
  - repeat constructor; unfold abs_defined, in_int32, INT_MIN, INT_MAX;
      simpl; lia.
Defined.

Lemma disabled_filters_are_never_consulted_witness :
  filter_reads sample_filters plain_config "" str_region sample_reader
  = filter_reads indel_filters plain_config "ACGT" str_region sample_reader.
Proof.
  apply (disabled_filters_are_never_consulted sample_filters indel_filters
           plain_config "" "ACGT" str_region sample_reader); simpl; lia.
Defined.

Lemma stricter_thresholds_keep_fewer_witness :
  sublist
    (region_alignments
       (filter_reads sample_filters sample_config "" str_region
          sample_reader))
    (region_alignments
       (filter_reads sample_filters zero_flank_config "" str_region
          sample_reader)).
Proof.
  apply (stricter_thresholds_keep_fewer sample_filters zero_flank_config
           sample_config "" str_region sample_reader).
  - unfold at_least_as_strict. simpl. repeat split; try lia; auto.
  - unfold flank_defined, in_int32, INT_MIN, INT_MAX. simpl. lia.
  - unfold flank_defined, in_int32, INT_MIN, INT_MAX. simpl. lia.
  - repeat constructor; unfold abs_defined, in_int32, INT_MIN, INT_MAX;
      simpl; lia.
Defined.

Lemma tag_read_touches_only_its_tags_witness :
  same_core read_grouped read_grouped_tagged
  ∧ forall t, t ≠ "RG" -> t ≠ "XS" -> t ≠ "XE" ->
              find_tag t (TagData read_grouped_tagged)
              = find_tag t (TagData read_grouped).
Proof.
  apply (tag_read_touches_only_its_tags all_tags_ok lib_groups str_region
           read_grouped read_grouped_tagged (Ok tt)).
  vm_compute. reflexivity.
Defined.

Lemma provenance_tag_value_witness :
  GetTag "RG" read_grouped_tagged
  = match GetTag "RG" read_grouped with
    | Some v => Some v
    | None =>
        if all_tags_ok "RG" "Z"
        then Some (TagString
                     ("lobSTR;" +:+ label_of lib_groups (Filename read_grouped)
                      +:+ ";" +:+ label_of lib_groups (Filename read_grouped)))
        else None
    end.
Proof.
  apply (provenance_tag_value all_tags_ok lib_groups str_region
           read_grouped read_grouped_tagged (Ok tt)).
  vm_compute. reflexivity.
Defined.

Lemma annotate_reads_fails_fast_witness :
  ("Failed to modify XS tag" = "Failed to modify XS tag"
   ∨ "Failed to modify XS tag" = "Failed to modify XE tag"
   ∨ "Failed to modify XS tag"
     = "Failed to save alignment for STR-spanning read")
  ∧ exists pre bad post pre' w1,
      [read_wide; read_edge] = pre ++ bad :: post
      ∧ annotate_reads no_xs_ok lib_groups str_region (list BamAlignment)
          save_always pre [] = (w1, Ok pre')
      ∧ annotate_read no_xs_ok lib_groups str_region (list BamAlignment)
          save_always bad w1 = ([], Died "Failed to modify XS tag").
Proof.
  apply (annotate_reads_fails_fast no_xs_ok lib_groups str_region
           (list BamAlignment) save_always [read_wide; read_edge] [] []
           "Failed to modify XS tag").
  vm_compute. reflexivity.
Defined.

Lemma grouping_ignores_annotation_witness :
  exists w' c d,
    read_and_filter_reads all_tags_ok lib_groups str_region
      (list BamAlignment) always_open save_always sample_filters
      sample_config "" sample_reader [] [] [] = (w', Ok (c, d))
    ∧ rg_names d
      = first_seen
          (label lib_groups
             <$> region_alignments
                   (filter_reads sample_filters sample_config ""
                      str_region sample_reader)).
Proof.
  eexists _, _, _. split; [reflexivity|].
  eapply (grouping_ignores_annotation all_tags_ok lib_groups str_region
            (list BamAlignment) always_open save_always sample_filters
            sample_config "" sample_reader []).
  reflexivity.
Defined.

Lemma reads_are_failures_plus_bucketed_witness :
  exists w' c d,
    read_and_filter_reads all_tags_ok lib_groups str_region
      (list BamAlignment) always_open save_always sample_filters
      sample_config "" sample_reader [] [] [] = (w', Ok (c, d))
    ∧ read_count c
      = failures c + Z.of_nat (length (concat (alignments_by_rg d))).
Proof.
  eexists _, _, _. split; [reflexivity|].
  eapply (reads_are_failures_plus_bucketed all_tags_ok lib_groups str_region
            (list BamAlignment) always_open save_always sample_filters
            sample_config "" sample_reader []).
  - unfold INT_MAX. simpl. lia.
  - reflexivity.
Defined.

Lemma whole_writes_what_it_buckets_witness :
  exists w' c d,
    read_and_filter_reads all_tags_ok lib_groups str_region
      (list BamAlignment) always_open save_always sample_filters
      sample_config "" sample_reader [] [] [] = (w', Ok (c, d))
    ∧ exists written, concat (alignments_by_rg d) ≡ₚ written
                      ∧ w' = fold_left (fun w r' => snd (save_always r' w))
                               written [].
Proof.
  eexists _, _, _. split; [reflexivity|].
  edestruct (whole_writes_what_it_buckets all_tags_ok lib_groups str_region
               (list BamAlignment) always_open save_always sample_filters
               sample_config "" sample_reader [])
    as (written & _ & Hp & Hw); [reflexivity|].
  exists written. split; [exact Hp|exact Hw].
Defined.

Lemma whole_aborts_only_when_writing_witness :
  always_open [] = true
  ∧ ("Failed to modify XS tag" = "Failed to modify XS tag"
     ∨ "Failed to modify XS tag" = "Failed to modify XE tag"
     ∨ "Failed to modify XS tag"
       = "Failed to save alignment for STR-spanning read").
Proof.
  apply (whole_aborts_only_when_writing no_xs_ok lib_groups str_region
           (list BamAlignment) always_open save_always sample_filters
           sample_config "" sample_reader [] [] [] []).
  reflexivity.
Defined.

Lemma handoffs_follow_the_regions_witness :
  exists s' e,
    process_regions all_tags_ok lib_groups (list BamAlignment) never_open
      save_always sample_filters sample_config sample_reference_id
      sample_ref_vector sample_fasta "fa" sample_set_region
      [region_c; region_b; region_d; region_a] (proc_start (list BamAlignment) [])
    = (s', e)
    ∧ exists k : nat,
        h_region <$> handoffs s'
        = (h_region <$> handoffs (proc_start (list BamAlignment) []))
          ++ take k [region_c; region_b; region_d; region_a]
        ∧ (e = Finished
           -> k = length [region_c; region_b; region_d; region_a])
        ∧ (e ≠ Finished
           -> (k < length [region_c; region_b; region_d; region_a])%nat).
Proof.
  eexists _, _. split; [reflexivity|].
  eapply (handoffs_follow_the_regions all_tags_ok lib_groups
            (list BamAlignment) never_open save_always sample_filters
            sample_config sample_reference_id sample_ref_vector sample_fasta
            "fa" sample_set_region).
  reflexivity.
Defined.

Lemma fasta_is_read_on_chromosome_change_witness :
  exists s',
    process_regions all_tags_ok lib_groups (list BamAlignment) never_open
      save_always sample_filters sample_config sample_reference_id
      sample_ref_vector sample_fasta "fa" sample_set_region
      [region_c; region_b; region_a] (proc_start (list BamAlignment) [])
    = (s', Finished)
    ∧ fst <$> fasta_log s'
      = changes (-1)
          ((fun r => sample_reference_id (chrom r))
             <$> [region_c; region_b; region_a]).
Proof.
  eexists. split; [reflexivity|].
  eapply (fasta_is_read_on_chromosome_change all_tags_ok lib_groups
            (list BamAlignment) never_open save_always sample_filters
            sample_config sample_reference_id sample_ref_vector sample_fasta
            "fa" sample_set_region).
  reflexivity.
Defined.

Lemma sorted_regions_read_each_fasta_once_witness :
  exists s',
    process_regions all_tags_ok lib_groups (list BamAlignment) never_open
      save_always sample_filters sample_config sample_reference_id
      sample_ref_vector sample_fasta "fa" sample_set_region
      [region_c; region_b; region_a] (proc_start (list BamAlignment) [])
    = (s', Finished)
    ∧ NoDup (fst <$> fasta_log s').
Proof.
  eexists. split; [reflexivity|].
  eapply (sorted_regions_read_each_fasta_once all_tags_ok lib_groups
            (list BamAlignment) never_open save_always sample_filters
            sample_config sample_reference_id sample_ref_vector sample_fasta
            "fa" sample_set_region [region_c; region_b; region_a] []).
  - repeat constructor.
  - intros r r' Hr Hr' _.
    assert (Hall : forall x, x ∈ [region_c; region_b; region_a]
                             -> chrom x = "chr1").
    { intros x Hx. repeat (apply elem_of_cons in Hx as [->|Hx]; [done|]).
      by apply elem_of_nil in Hx. }
    by rewrite (Hall r Hr), (Hall r' Hr').
  - reflexivity.
Defined.

Lemma unpositionable_region_is_fatal_witness :
  exists s1 s2,
    process_regions all_tags_ok lib_groups (list BamAlignment) never_open
      save_always sample_filters sample_config sample_reference_id
      sample_ref_vector sample_fasta "fa" sample_set_region
      ([region_b] ++ region_d :: [region_a]) (proc_start (list BamAlignment) [])
    = (s2, Fatal "One or more BAM files failed to set the region properly")
    ∧ handoffs s2 = handoffs s1 ∧ bam_writer s2 = bam_writer s1.
Proof.
  eexists _, _.
  eapply (unpositionable_region_is_fatal all_tags_ok lib_groups
            (list BamAlignment) never_open save_always sample_filters
            sample_config sample_reference_id sample_ref_vector sample_fasta
            "fa" sample_set_region [region_b] [region_a] region_d
            (proc_start (list BamAlignment) []));
    reflexivity.
Defined.

Lemma known_chromosomes_never_out_of_range_witness :
  exists s' e,
    process_regions all_tags_ok lib_groups (list BamAlignment) never_open
      save_always sample_filters sample_config sample_reference_id
      sample_ref_vector sample_fasta "fa" sample_set_region
      [region_b; region_d; region_a] (proc_start (list BamAlignment) [])
    = (s', e)
    ∧ e ≠ OutOfRange (-1).
Proof.
  eexists _, _. split; [reflexivity|].
  eapply (known_chromosomes_never_out_of_range all_tags_ok lib_groups
            (list BamAlignment) never_open save_always sample_filters
            sample_config sample_reference_id sample_ref_vector sample_fasta
            "fa" sample_set_region [region_b; region_d; region_a]
            (proc_start (list BamAlignment) [])).
  - repeat constructor; eexists; reflexivity.
  - reflexivity.
Defined.

Lemma filter_sees_the_regions_chromosome_witness :
  exists s' e,
    process_regions all_tags_ok lib_groups (list BamAlignment) never_open
      save_always sample_filters sample_config sample_reference_id
      sample_ref_vector sample_fasta "fa" sample_set_region
      [region_c; region_b; region_a] (proc_start (list BamAlignment) [])
    = (s', e)
    ∧ Forall (fun h =>
                match ref_at sample_ref_vector
                        (sample_reference_id (chrom (h_region h))) with
                | Some name => h_chrom_seq h = name +:+ ".fa"
                | None => sample_reference_id (chrom (h_region h)) = -1
                          ∧ h_chrom_seq h = ""
                end) (handoffs s').
Proof.
  eexists _, _. split; [reflexivity|].
  eapply (filter_sees_the_regions_chromosome all_tags_ok lib_groups
            (list BamAlignment) never_open save_always sample_filters
            sample_config sample_reference_id sample_ref_vector sample_fasta
            "fa" sample_set_region (fun file => file)
            [region_c; region_b; region_a] []).
  - reflexivity.
  - reflexivity.
Defined.

Lemma str_determines_coordinates_witness :
  chrom region_a = chrom region_a_renamed
  ∧ start region_a = start region_a_renamed
  ∧ stop region_a = stop region_a_renamed.
Proof.
  apply (str_determines_coordinates region_a region_a_renamed).
  - simpl. intuition discriminate.
  - simpl. intuition discriminate.
  - reflexivity.
Defined.
